(** * Document indexing and retrieval engine of [src/api/mcp.ts]

    A shallow embedding of the document engine of the MCP server:
    filename validation, chunking, CSV normalisation, the PDF/CSV parsers
    with their process-wide document cache, the per-document scorer and the
    [search_documentation] tool.

    Modelling conventions.
    - JavaScript strings are Rocq [string]s; a character is an [ascii].
      Whitespace is the ASCII part of JavaScript's [\s] (tab, LF, VT, FF,
      CR, space) and [toLowerCase] lowers A-Z.
    - A thrown [Error] is an [Err] carrying the spec's error kind and the
      message of the source.
    - The file system is an environment: the directory listings, the file
      contents per (type, name) and the text extractor of [pdf-parse]. *)

From Stdlib Require Import String Ascii List Bool Arith Lia ZArith.
From stdpp Require Import base gmap strings.
Import ListNotations.

Local Open Scope string_scope.

(* ------------------------------------------------------------------ *)
(** ** Strings *)

Definition is_ws (c : ascii) : bool :=
  let n := nat_of_ascii c in
  Nat.eqb n 32 || (Nat.leb 9 n && Nat.leb n 13).

Definition is_upper (c : ascii) : bool :=
  let n := nat_of_ascii c in Nat.leb 65 n && Nat.leb n 90.

Definition is_lower_letter (c : ascii) : bool :=
  let n := nat_of_ascii c in Nat.leb 97 n && Nat.leb n 122.

(** [toLowerCase] *)
Fixpoint toLowerCase (s : string) : string :=
  match s with
  | EmptyString => EmptyString
  | String c t =>
      String (if is_upper c then ascii_of_nat (nat_of_ascii c + 32) else c)
             (toLowerCase t)
  end.

(** [s.startsWith(p)] *)
Fixpoint startsWith (s p : string) {struct p} : bool :=
  match p, s with
  | EmptyString, _ => true
  | String c p', String d s' => Ascii.eqb c d && startsWith s' p'
  | String _ _, EmptyString => false
  end.

(** [s.includes(p)] *)
Fixpoint includes (s p : string) : bool :=
  startsWith s p ||
  match s with
  | EmptyString => false
  | String _ s' => includes s' p
  end.

(** Dropping leading whitespace, on the characters of a string. *)
Fixpoint drop_ws (l : list ascii) : list ascii :=
  match l with
  | c :: t => if is_ws c then drop_ws t else l
  | [] => []
  end.

(** [s.trim()]: whitespace removed at both ends. *)
Definition trim (s : string) : string :=
  string_of_list_ascii
    (rev (drop_ws (rev (drop_ws (list_ascii_of_string s))))).

(** [arr.join(sep)] *)
Fixpoint join (sep : string) (l : list string) : string :=
  match l with
  | [] => ""
  | [x] => x
  | x :: t => x +:+ sep +:+ join sep t
  end.

(* ------------------------------------------------------------------ *)
(** ** Errors and results *)

Inductive err :=
| ValidationError (msg : string)
| NotFoundError (msg : string)
| ParseError (msg : string)
| ExtractionError (msg : string).

Inductive result (A : Type) :=
| Ok (a : A)
| Err (e : err).
Arguments Ok {A} a.
Arguments Err {A} e.

(* ------------------------------------------------------------------ *)
(** ** [validateFilename] *)

(** [/^[A-Za-z]:/.test(filename)] *)
Definition drive_prefix (s : string) : bool :=
  match s with
  | String c (String d _) =>
      (is_upper c || is_lower_letter c) && Ascii.eqb d ":"%char
  | _ => false
  end.

Definition backslash : string := String (ascii_of_nat 92) EmptyString.

Definition validateFilename (filename : string) : result unit :=
  if String.eqb filename "" then Err (ValidationError "Filename cannot be empty")
  else if includes filename ".." || includes filename "/"
          || includes filename backslash
  then Err (ValidationError ("Invalid filename: " +:+ filename +:+
        ". Filename cannot contain path separators or parent directory references."))
  else if startsWith filename "/" || drive_prefix filename
  then Err (ValidationError ("Invalid filename: " +:+ filename +:+
        ". Filename cannot be an absolute path."))
  else Ok tt.

(* ------------------------------------------------------------------ *)
(** ** [chunkText] *)

Definition is_punct (c : ascii) : bool :=
  Ascii.eqb c "."%char || Ascii.eqb c "!"%char || Ascii.eqb c "?"%char.

(** [text.split(/(?<=[.!?])\s+/)]: a maximal run of whitespace that directly
    follows a sentence terminator separates two pieces.  [acc] holds the
    current piece reversed, so its head is the previous character of the
    text; [insep] is set while a separator run is being consumed. *)
Fixpoint split_sentences_aux (s : string) (acc : list ascii) (insep : bool)
  : list string :=
  match s with
  | EmptyString => [string_of_list_ascii (rev acc)]
  | String c t =>
      if insep then
        if is_ws c then split_sentences_aux t [] true
        else split_sentences_aux t [c] false
      else if is_ws c && match acc with p :: _ => is_punct p | [] => false end
      then string_of_list_ascii (rev acc) :: split_sentences_aux t [] true
      else split_sentences_aux t (c :: acc) false
  end.

Definition split_sentences (text : string) : list string :=
  split_sentences_aux text [] false.

(** [s.split(sep)] for a one-character separator. *)
Fixpoint split_char_aux (sep : ascii) (s : string) (acc : list ascii)
  : list string :=
  match s with
  | EmptyString => [string_of_list_ascii (rev acc)]
  | String c t =>
      if Ascii.eqb c sep
      then string_of_list_ascii (rev acc) :: split_char_aux sep t []
      else split_char_aux sep t (c :: acc)
  end.

Definition split_char (sep : ascii) (s : string) : list string :=
  split_char_aux sep s [].

(** [arr.slice(start)]: a negative start counts from the end; [-0] is [0]. *)
Definition js_slice_from {A} (l : list A) (start : Z) : list A :=
  let len := Z.of_nat (length l) in
  let from := if (start <? 0)%Z then Z.max (len + start) 0 else Z.min start len in
  skipn (Z.to_nat from) l.

Definition slen (s : string) : Z := Z.of_nat (String.length s).

(** The [for (const sentence of sentences)] loop: [chunks] are the chunks
    pushed so far, [cur] is [currentChunk]. *)
Fixpoint chunk_loop (chunkSize overlap : Z) (sentences : list string)
    (chunks : list string) (cur : string) : list string * string :=
  match sentences with
  | [] => (chunks, cur)
  | sentence :: rest =>
      if (chunkSize <? slen cur + slen sentence)%Z && (0 <? slen cur)%Z then
        let words := split_char " "%char cur in
        let overlapWords := js_slice_from words (- (overlap / 5))%Z in
        chunk_loop chunkSize overlap rest (chunks ++ [trim cur])
          (join " " overlapWords +:+ " " +:+ sentence)
      else
        chunk_loop chunkSize overlap rest chunks
          (cur +:+ (if String.eqb cur "" then "" else " ") +:+ sentence)
  end.

Definition chunkText (text : string) (chunkSize overlap : Z) : list string :=
  let '(chunks, cur) :=
    chunk_loop chunkSize overlap (split_sentences text) [] "" in
  if String.eqb (trim cur) "" then chunks else chunks ++ [trim cur].

Definition chunkText_default (text : string) : list string :=
  chunkText text 1000 200.

(* ------------------------------------------------------------------ *)
(** ** CSV normalisation: [parseCSVLine] and the row formatting of [parseCSV] *)

Definition dq : ascii := ascii_of_nat 34.

Definition str_of_rev (acc : list ascii) : string := string_of_list_ascii (rev acc).

(** The character loop of [parseCSVLine]; [current] is kept reversed. *)
Fixpoint parseCSVLine_aux (line : string) (current : list ascii)
    (inQuotes : bool) (values : list string) : list string :=
  match line with
  | EmptyString => values ++ [trim (str_of_rev current)]
  | String c t =>
      if Ascii.eqb c dq then
        match t with
        | String d t' =>
            if inQuotes && Ascii.eqb d dq
            then parseCSVLine_aux t' (dq :: current) inQuotes values
            else parseCSVLine_aux t current (negb inQuotes) values
        | EmptyString => parseCSVLine_aux t current (negb inQuotes) values
        end
      else if Ascii.eqb c ","%char && negb inQuotes
      then parseCSVLine_aux t [] inQuotes (values ++ [trim (str_of_rev current)])
      else parseCSVLine_aux t (c :: current) inQuotes values
  end.

Definition parseCSVLine (line : string) : list string :=
  parseCSVLine_aux line [] false [].

Definition LF : ascii := ascii_of_nat 10.
Definition CR : ascii := ascii_of_nat 13.

(** [csvContent.split(/\r?\n/)]: a line feed ends a line, together with one
    carriage return right before it. *)
Fixpoint split_lines_aux (s : string) (acc : list ascii) : list string :=
  match s with
  | EmptyString => [str_of_rev acc]
  | String c t =>
      if Ascii.eqb c LF then
        str_of_rev (match acc with r :: a => if Ascii.eqb r CR then a else acc
                                  | [] => [] end)
          :: split_lines_aux t []
      else split_lines_aux t (c :: acc)
  end.

Definition split_lines (s : string) : list string := split_lines_aux s [].

(** Decimal rendering of a row number, for the warning text. *)
Fixpoint digits_aux (fuel n : nat) (acc : string) : string :=
  match fuel with
  | 0 => acc
  | S f =>
      let acc' := String (ascii_of_nat (48 + n mod 10)) acc in
      if Nat.ltb n 10 then acc' else digits_aux f (n / 10) acc'
  end.

Definition nat_to_string (n : nat) : string := digits_aux (S n) n "".

(** [values[i] || ""] *)
Definition value_or_empty (values : list string) (i : nat) : string :=
  match nth_error values i with
  | Some v => if String.eqb v "" then "" else v
  | None => ""
  end.

(** The callback of [rows.map((row, rowIndex) => ...)]: the formatted line
    and the [console.warn] lines it emits. *)
Definition format_row (headers : list string) (rowIndex : nat) (row : string)
  : string * list string :=
  let values := parseCSVLine row in
  let headerCount := length headers in
  let warns :=
    if negb (Nat.eqb (length values) headerCount) then
      ["Row " +:+ nat_to_string (rowIndex + 2) +:+ " has " +:+
       nat_to_string (length values) +:+ " columns but expected " +:+
       nat_to_string headerCount +:+ ". Padding with empty values."]
    else [] in
  let paddedValues := map (value_or_empty values) (seq 0 headerCount) in
  (join " | " (imap (fun i header =>
      header +:+ ": " +:+ value_or_empty paddedValues i) headers), warns).

(** The tabular normaliser: [None] for a file without a non-blank line,
    otherwise the text of the rows joined by blank lines, with the
    warnings. *)
Definition normalizeCSV (csvContent : string) : option (string * list string) :=
  let lines := List.filter (fun l => negb (String.eqb (trim l) "")) (split_lines csvContent) in
  match lines with
  | [] => None
  | header :: rows =>
      let headers := parseCSVLine header in
      let formatted := imap (format_row headers) rows in
      Some (join (String LF (String LF EmptyString)) (map fst formatted),
            concat (map snd formatted))
  end.

(* ------------------------------------------------------------------ *)
(** ** Documents, storage and the document cache *)

Inductive DocumentType := csv | pdf.

Definition DocumentType_eqb (a b : DocumentType) : bool :=
  match a, b with csv, csv | pdf, pdf => true | _, _ => false end.

Definition type_str (t : DocumentType) : string :=
  match t with csv => "csv" | pdf => "pdf" end.

Record DocumentChunk := {
  content : string;
  pageNumber : nat;
  chunkIndex : nat }.

Record ParsedDocument := {
  filename : string;
  fullText : string;
  chunks : list DocumentChunk;
  pageCount : nat;
  parsedAt : nat;
  doc_type : DocumentType }.

(** The runtime's regular expressions: [re term s] is the number of
    matches of [s.match(new RegExp(term, "gi"))] ([0] when [match] returns
    null), and [None] when [new RegExp(term, "gi")] throws a SyntaxError. *)
Definition regex_engine := string -> string -> option nat.

(** The runtime: the listings of [docs/csv] and [docs/pdf] ([None] when
    the directory does not exist), the contents of the files, the text
    extractor [pdfParse] ([None] when it throws), and the regular
    expression engine. *)
Record env := {
  csv_listing : option (list string);
  pdf_listing : option (list string);
  read_file : DocumentType -> string -> option string;
  pdfParse : string -> option (string * nat);
  regexMatch : regex_engine }.

(** [documentCache] *)
Definition cache := gmap string ParsedDocument.

(** The cache key [`${type}:${filename}`]. *)
Definition cacheKey (t : DocumentType) (fname : string) : string :=
  type_str t +:+ ":" +:+ fname.

(** The part of [parseCSV] after a cache miss: storage access, parsing,
    publication in the cache. [now] is the value of [new Date()]. *)
Definition csv_miss (E : env) (now : nat) (fname : string) (c : cache)
  : result ParsedDocument * cache :=
  match read_file E csv fname with
  | None => (Err (NotFoundError ("CSV file not found: " +:+ fname)), c)
  | Some csvContent =>
      match normalizeCSV csvContent with
      | None => (Err (ParseError ("CSV file is empty: " +:+ fname)), c)
      | Some (textContent, _) =>
          let chs := imap (fun index content =>
                {| content := content; pageNumber := 1; chunkIndex := index |})
                (chunkText_default textContent) in
          let parsedDoc := {| filename := fname; fullText := textContent;
                chunks := chs; pageCount := 1; parsedAt := now;
                doc_type := csv |} in
          (Ok parsedDoc, <[cacheKey csv fname := parsedDoc]> c)
      end
  end.

Definition parseCSV (E : env) (now : nat) (fname : string) (c : cache)
  : result ParsedDocument * cache :=
  match validateFilename fname with
  | Err e => (Err e, c)
  | Ok _ =>
      match c !! cacheKey csv fname with
      | Some d => (Ok d, c)
      | None => csv_miss E now fname c
      end
  end.

(** [parsePDF] runs synchronously up to [await pdfParse(dataBuffer)]; the
    rest runs when the extraction has settled.  [pdf_open] is the storage
    access after a cache miss, [pdf_finish] the continuation. *)
Inductive pdf_stage :=
| PdfDone (r : result ParsedDocument)
| PdfAwait (dataBuffer : string).

Definition pdf_open (E : env) (fname : string) : pdf_stage :=
  match read_file E pdf fname with
  | None => PdfDone (Err (NotFoundError ("PDF file not found: " +:+ fname)))
  | Some dataBuffer => PdfAwait dataBuffer
  end.

Definition pdf_begin (E : env) (fname : string) (c : cache) : pdf_stage :=
  match validateFilename fname with
  | Err e => PdfDone (Err e)
  | Ok _ =>
      match c !! cacheKey pdf fname with
      | Some d => PdfDone (Ok d)
      | None => pdf_open E fname
      end
  end.

Definition pdf_finish (E : env) (now : nat) (fname dataBuffer : string)
    (c : cache) : result ParsedDocument * cache :=
  match pdfParse E dataBuffer with
  | None => (Err (ExtractionError ("pdf-parse failed on " +:+ fname)), c)
  | Some (text, numpages) =>
      let chs := imap (fun index content =>
            {| content := content; pageNumber := index / 3 + 1;
               chunkIndex := index |}) (chunkText_default text) in
      let parsedDoc := {| filename := fname; fullText := text; chunks := chs;
            pageCount := numpages; parsedAt := now; doc_type := pdf |} in
      (Ok parsedDoc, <[cacheKey pdf fname := parsedDoc]> c)
  end.

(** A [parsePDF] call that is not interleaved with others. *)
Definition parsePDF (E : env) (now : nat) (fname : string) (c : cache)
  : result ParsedDocument * cache :=
  match pdf_begin E fname c with
  | PdfDone r => (r, c)
  | PdfAwait dataBuffer => pdf_finish E now fname dataBuffer c
  end.

Definition pdf_miss (E : env) (now : nat) (fname : string) (c : cache)
  : result ParsedDocument * cache :=
  match pdf_open E fname with
  | PdfDone r => (r, c)
  | PdfAwait dataBuffer => pdf_finish E now fname dataBuffer c
  end.

Definition parseDocument (E : env) (now : nat) (fname : string)
    (t : DocumentType) (c : cache) : result ParsedDocument * cache :=
  match t with
  | csv => parseCSV E now fname c
  | pdf => parsePDF E now fname c
  end.

(** The work [parseDocument] does once the cache lookup has missed. *)
Definition doc_miss (E : env) (now : nat) (fname : string)
    (t : DocumentType) (c : cache) : result ParsedDocument * cache :=
  match t with
  | csv => csv_miss E now fname c
  | pdf => pdf_miss E now fname c
  end.

(* ------------------------------------------------------------------ *)
(** ** Scoring: [searchDocument] *)

(** [s.split(/\s+/)]: maximal whitespace runs separate the pieces; a
    leading or trailing run yields an empty first or last piece. *)
Fixpoint split_ws_aux (s : string) (acc : list ascii) (inws : bool)
  : list string :=
  match s with
  | EmptyString => [str_of_rev acc]
  | String c t =>
      if is_ws c then
        if inws then split_ws_aux t acc true
        else str_of_rev acc :: split_ws_aux t [] true
      else split_ws_aux t (c :: acc) false
  end.

Definition split_ws (s : string) : list string := split_ws_aux s [] false.

Fixpoint sdrop (n : nat) (s : string) : string :=
  match n, s with
  | 0, _ => s
  | S n', String _ t => sdrop n' t
  | S _, EmptyString => EmptyString
  end.

(** The non-overlapping occurrences of [term] in [s], found left to right. *)
Fixpoint count_matches_aux (fuel : nat) (term s : string) : nat :=
  match fuel with
  | 0 => 0
  | S f =>
      match s with
      | EmptyString => 0
      | String _ t =>
          if startsWith s term
          then S (count_matches_aux f term (sdrop (String.length term) s))
          else count_matches_aux f term t
      end
  end.

(** [fuel] bounds the scan by the length of [s]. *)
Definition count_matches (term s : string) : nat :=
  count_matches_aux (S (String.length s)) term s.

(** The SyntaxCharacters of regular expression patterns. *)
Definition regex_syntax_chars : string := "^$\.*+?()[]{}|".

(** A printable, non-upper-case character that is not a SyntaxCharacter:
    in a pattern it is a literal character. *)
Definition plain_char (c : ascii) : bool :=
  Nat.leb 33 (nat_of_ascii c) && Nat.leb (nat_of_ascii c) 126 && negb (is_upper c) &&
  negb (existsb (Ascii.eqb c) (list_ascii_of_string regex_syntax_chars)).

(** A non-empty pattern of literal characters only. *)
Definition plain_term (term : string) : bool :=
  negb (String.eqb term "") && forallb plain_char (list_ascii_of_string term).

(** What is known of the engine: a plain pattern is valid and, with the
    flags ["gi"], matches on a lower-cased text exactly its own
    occurrences, found left to right without overlap. *)
Definition regex_literal_ok (re : regex_engine) : Prop :=
  forall term s, plain_term term = true ->
    re term (toLowerCase s) = Some (count_matches term (toLowerCase s)).

(** An engine with that property that rejects every other pattern; the
    instances below run with it. *)
Definition literal_regex : regex_engine :=
  fun term s => if plain_term term then Some (count_matches term s) else None.

Definition queryTerms (query : string) : list string :=
  List.filter (fun term => Nat.ltb 2 (String.length term)) (split_ws (toLowerCase query)).

(** The [for (const term of queryTerms)] loop: each term adds its number
    of matches; a term the engine rejects throws. *)
Fixpoint sum_matches (re : regex_engine) (terms : list string) (lowerContent : string)
    (sc : nat) : option nat :=
  match terms with
  | [] => Some sc
  | term :: rest =>
      match re term lowerContent with
      | None => None
      | Some m => sum_matches re rest lowerContent (sc + m)
      end
  end.

(** The score of a chunk text for a query; [None] when scoring throws. *)
Definition score (re : regex_engine) (query : string) (text : string) : option nat :=
  let lowerContent := toLowerCase text in
  match sum_matches re (queryTerms query) lowerContent 0 with
  | None => None
  | Some sc => Some (if includes lowerContent (toLowerCase query) then sc + 10 else sc)
  end.

(** [Array.prototype.sort] with comparator [(a, b) => b.score - a.score]:
    a stable sort by descending score (insertion sort). *)
Fixpoint insert_desc {A} (sc : A -> nat) (x : A) (l : list A) : list A :=
  match l with
  | [] => [x]
  | y :: t => if Nat.ltb (sc y) (sc x) then x :: y :: t else y :: insert_desc sc x t
  end.

Definition sort_desc {A} (sc : A -> nat) (l : list A) : list A :=
  fold_left (fun acc x => insert_desc sc x acc) l [].

(** [arr.slice(0, k)] *)
Definition js_slice_to {A} (l : list A) (k : Z) : list A :=
  let len := Z.of_nat (length l) in
  let to := if (k <? 0)%Z then Z.max (len + k) 0 else Z.min k len in
  firstn (Z.to_nat to) l.

(** [doc.chunks.map(chunk => ({ chunk, score }))]: throws at the first
    chunk whose scoring throws. *)
Fixpoint score_chunks (re : regex_engine) (query : string) (chs : list DocumentChunk)
  : option (list (DocumentChunk * nat)) :=
  match chs with
  | [] => Some []
  | ch :: rest =>
      match score re query (content ch) with
      | None => None
      | Some n =>
          match score_chunks re query rest with
          | None => None
          | Some scored => Some ((ch, n) :: scored)
          end
      end
  end.

(** [None] when [searchDocument] throws. *)
Definition searchDocument (re : regex_engine) (doc : ParsedDocument) (query : string)
    (topK : Z) : option (list DocumentChunk) :=
  match score_chunks re query (chunks doc) with
  | None => None
  | Some scoredChunks =>
      Some (map fst (js_slice_to
        (sort_desc snd (List.filter (fun p => Nat.ltb 0 (snd p)) scoredChunks)) topK))
  end.

(* ------------------------------------------------------------------ *)
(** ** Catalog and the [search_documentation] tool *)

Fixpoint endsWith (s suffix : string) : bool :=
  String.eqb s suffix ||
  match s with
  | EmptyString => false
  | String _ t => endsWith t suffix
  end.

Definition getAvailableCSVs (E : env) : list string :=
  match csv_listing E with
  | None => []
  | Some files => List.filter (fun f => endsWith (toLowerCase f) ".csv") files
  end.

Definition getAvailablePDFs (E : env) : list string :=
  match pdf_listing E with
  | None => []
  | Some files => List.filter (fun f => endsWith (toLowerCase f) ".pdf") files
  end.

Definition getAllDocuments (E : env) : list (string * DocumentType) :=
  (map (fun f => (f, csv)) (getAvailableCSVs E) ++
  map (fun f => (f, pdf)) (getAvailablePDFs E))%list.

(** The arguments of [search_documentation]. *)
Record search_args := {
  arg_query : string;
  arg_filename : option string;
  arg_type : option DocumentType;
  arg_topK : option Z }.

(** A search hit: [{ filename, docType, chunk }]. *)
Definition hit := (string * DocumentType * DocumentChunk)%type.

(** The responses of the tool, without their markdown rendering. *)
Inductive search_response :=
| NoDocuments
| NoResults (query : string)
| Results (query : string) (topResults : list hit).

(** [(args.topK as number) || 5] *)
Definition effective_topK (k : option Z) : Z :=
  match k with
  | Some k => if (k =? 0)%Z then 5%Z else k
  | None => 5%Z
  end.

Definition documentsToSearch (E : env) (a : search_args)
  : list (string * DocumentType) :=
  match arg_filename a, arg_type a with
  | Some f, Some t => if String.eqb f "" then
        map (fun f => (f, t)) (match t with csv => getAvailableCSVs E
                                         | pdf => getAvailablePDFs E end)
      else [(f, t)]
  | _, Some t =>
      map (fun f => (f, t)) (match t with csv => getAvailableCSVs E
                                       | pdf => getAvailablePDFs E end)
  | _, None => getAllDocuments E
  end.

(** The [for (const doc of documentsToSearch)] loop with its [try/catch]:
    a document whose parse or search throws contributes nothing. *)
Fixpoint search_loop (E : env) (now : nat) (query : string) (topK : Z)
    (docs : list (string * DocumentType)) (c : cache) : list hit * cache :=
  match docs with
  | [] => ([], c)
  | (f, t) :: rest =>
      let '(r, c1) := parseDocument E now f t c in
      match r with
      | Err _ => search_loop E now query topK rest c1
      | Ok parsedDoc =>
          match searchDocument (regexMatch E) parsedDoc query topK with
          | None => search_loop E now query topK rest c1
          | Some found =>
              let results := map (fun ch => (f, t, ch)) found in
              let '(more, c2) := search_loop E now query topK rest c1 in
              (results ++ more, c2)%list
          end
      end
  end.

(** The code after the loop. *)
Definition finish_search (query : string) (topK : Z) (allResults : list hit)
  : search_response :=
  match allResults with
  | [] => NoResults query
  | _ => Results query (js_slice_to allResults topK)
  end.

Definition search_over (E : env) (now : nat) (query : string) (topK : Z)
    (docs : list (string * DocumentType)) (c : cache) : search_response * cache :=
  match docs with
  | [] => (NoDocuments, c)
  | _ =>
      let '(allResults, c') := search_loop E now query topK docs c in
      (finish_search query topK allResults, c')
  end.

Definition search_documentation (E : env) (now : nat) (a : search_args) (c : cache)
  : search_response * cache :=
  search_over E now (arg_query a) (effective_topK (arg_topK a))
    (documentsToSearch E a) c.

(* ------------------------------------------------------------------ *)
(** ** The [get_document_summary] tool *)

Definition NL : string := String LF EmptyString.

(** [s.toUpperCase()] on a-z. *)
Fixpoint toUpperCase (s : string) : string :=
  match s with
  | EmptyString => EmptyString
  | String c t =>
      String (if is_lower_letter c then ascii_of_nat (nat_of_ascii c - 32) else c)
             (toUpperCase t)
  end.

(** [parseDocument] compares the type with ["csv"]; any other value is
    parsed as a PDF. *)
Definition dispatch_type (type : string) : DocumentType :=
  if String.eqb type "csv" then csv else pdf.

(** The text of a summary. *)
Definition summary_text (filename type : string) (pages nchunks : nat) (preview : string)
  : string :=
  "# Summary: " +:+ filename +:+ " [" +:+ toUpperCase type +:+ "]" +:+ NL +:+ NL +:+
  "**Pages:** " +:+ nat_to_string pages +:+ NL +:+
  "**Chunks:** " +:+ nat_to_string nchunks +:+ NL +:+ NL +:+
  "## Preview" +:+ NL +:+ NL +:+ preview.

Definition get_document_summary (E : env) (now : nat) (filename type : string) (c : cache)
  : result string * cache :=
  let '(r, c') := parseDocument E now filename (dispatch_type type) c in
  match r with
  | Err e => (Err e, c')
  | Ok doc =>
      let preview := join (NL +:+ NL) (map content (firstn 3 (chunks doc))) in
      (Ok (summary_text filename type (pageCount doc) (length (chunks doc)) preview), c')
  end.

(* ------------------------------------------------------------------ *)
(** ** Overlapping requests on the event loop

    Requests are served on one JavaScript event loop.  [parseCSV] has no
    suspension point, so a CSV call runs to completion in one step.  A
    [parsePDF] call runs up to [await pdfParse(...)] when it is called and is
    resumed later, possibly after other calls have run.  The world records
    the cache, the suspended PDF calls, the keys whose storage was accessed
    ([existsSync]/[readFileSync] after a cache miss) and the results
    returned, tagged with the call and its cache key. *)

Record task := {
  task_id : nat;
  task_file : string;
  task_buf : string }.

Inductive event :=
| Call (t : DocumentType) (fname : string)
| Resume (id : nat).

Record world := {
  w_cache : cache;
  w_pending : list task;
  w_touched : list string;
  w_done : list (nat * string * result ParsedDocument);
  w_clock : nat;
  w_next : nat }.

Definition world0 : world :=
  {| w_cache := ∅; w_pending := []; w_touched := []; w_done := [];
     w_clock := 0; w_next := 0 |}.

(** Whether a call passes validation and misses the cache, and so goes to
    storage. *)
Definition touches_storage (t : DocumentType) (fname : string) (c : cache) : bool :=
  match validateFilename fname with
  | Err _ => false
  | Ok _ => match c !! cacheKey t fname with None => true | Some _ => false end
  end.

Definition find_task (id : nat) (l : list task) : option task :=
  List.find (fun tk => Nat.eqb (task_id tk) id) l.

Definition world_step (E : env) (ev : event) (w : world) : world :=
  let now := w_clock w in
  let c := w_cache w in
  match ev with
  | Call t fname =>
      let id := w_next w in
      let k := cacheKey t fname in
      let touched := (w_touched w ++ (if touches_storage t fname c then [k] else []))%list in
      match t with
      | csv =>
          let '(r, c') := parseCSV E now fname c in
          {| w_cache := c'; w_pending := w_pending w; w_touched := touched;
             w_done := (w_done w ++ [(id, k, r)])%list;
             w_clock := S now; w_next := S id |}
      | pdf =>
          match pdf_begin E fname c with
          | PdfDone r =>
              {| w_cache := c; w_pending := w_pending w; w_touched := touched;
                 w_done := (w_done w ++ [(id, k, r)])%list;
                 w_clock := S now; w_next := S id |}
          | PdfAwait buf =>
              {| w_cache := c;
                 w_pending := (w_pending w ++ [{| task_id := id; task_file := fname;
                                                  task_buf := buf |}])%list;
                 w_touched := touched; w_done := w_done w;
                 w_clock := S now; w_next := S id |}
          end
      end
  | Resume id =>
      match find_task id (w_pending w) with
      | None =>
          {| w_cache := c; w_pending := w_pending w; w_touched := w_touched w;
             w_done := w_done w; w_clock := S now; w_next := w_next w |}
      | Some tk =>
          let '(r, c') := pdf_finish E now (task_file tk) (task_buf tk) c in
          {| w_cache := c';
             w_pending := List.filter (fun tk' => negb (Nat.eqb (task_id tk') id)) (w_pending w);
             w_touched := w_touched w;
             w_done := (w_done w ++ [(id, cacheKey pdf (task_file tk), r)])%list;
             w_clock := S now; w_next := w_next w |}
      end
  end.

Definition run (E : env) (evs : list event) (w : world) : world :=
  fold_left (fun w ev => world_step E ev w) evs w.

(* ================================================================== *)
(** * Properties *)

(* ------------------------------------------------------------------ *)
(** ** String lemmas *)

Lemma startsWith_spec (s p : string) :
  startsWith s p = true <-> exists b, s = p +:+ b.
Proof.
  revert s; induction p as [|c p IH]; intros s; simpl.
  - split; [intros _; exists s; reflexivity | auto].
  - destruct s as [|d s].
    + split; [discriminate | intros [b Hb]; discriminate].
    + rewrite andb_true_iff, Ascii.eqb_eq, IH. split.
      * intros [-> [b ->]]. exists b. reflexivity.
      * intros [b Hb]. injection Hb as -> ->. split; [reflexivity | eauto].
Qed.

Lemma includes_spec (s p : string) :
  includes s p = true <-> exists a b, s = a +:+ p +:+ b.
Proof.
  induction s as [|d s IH]; simpl.
  - rewrite orb_false_r, startsWith_spec. split.
    + intros [b Hb]. exists "", b. exact Hb.
    + intros [a [b Hab]]. destruct a as [|x a]; [exists b; exact Hab | discriminate].
  - rewrite orb_true_iff, startsWith_spec, IH. split.
    + intros [[b Hb] | [a [b Hab]]].
      * exists "", b. exact Hb.
      * exists (String d a), b. rewrite Hab. reflexivity.
    + intros [a [b Hab]]. destruct a as [|x a].
      * left. exists b. exact Hab.
      * right. injection Hab as _ Hs. exists a, b. exact Hs.
Qed.

(* ------------------------------------------------------------------ *)
(** ** Filename validation *)

(** The rejected filenames, as the spec lists them. *)
Definition has_sub (p f : string) : Prop := exists a b, f = a +:+ p +:+ b.

Definition ascii_letter (c : ascii) : Prop :=
  (65 <= nat_of_ascii c <= 90)%nat \/ (97 <= nat_of_ascii c <= 122)%nat.

Definition rejected_name (f : string) : Prop :=
  f = "" \/ has_sub ".." f \/ has_sub "/" f \/ has_sub backslash f
  \/ (exists rest, f = "/" +:+ rest)
  \/ (exists c rest, f = String c (String ":" rest) /\ ascii_letter c).

Lemma drive_prefix_spec (f : string) :
  drive_prefix f = true <-> exists c rest, f = String c (String ":" rest) /\ ascii_letter c.
Proof.
  unfold drive_prefix, ascii_letter, is_upper, is_lower_letter.
  destruct f as [|c [|d rest]].
  - split; [discriminate | intros (c & r & H & _); discriminate].
  - split; [discriminate | intros (c' & r & H & _); discriminate].
  - rewrite andb_true_iff, orb_true_iff, !andb_true_iff, Ascii.eqb_eq,
      !Nat.leb_le. split.
    + intros [Hc ->]. exists c, rest. split; [reflexivity | lia].
    + intros (c' & r & Heq & Hl). injection Heq as -> -> ->. split; [lia | reflexivity].
Qed.

(** C4 *)
(** [validateFilename] throws a validation error exactly on the empty
    name, on a name containing [..], [/] or a backslash, on a name starting
    with [/], and on a name starting with a drive letter and a colon; every
    other name passes. *)
Theorem validateFilename_rejects_exactly (f : string) :
  (rejected_name f -> exists msg, validateFilename f = Err (ValidationError msg)) /\
  (~ rejected_name f -> validateFilename f = Ok tt).
Proof.
  unfold validateFilename.
  destruct (String.eqb_spec f "") as [Hf|Hf].
  { split; [eauto | intros Hn; exfalso; apply Hn; left; exact Hf]. }
  destruct (includes f ".." || includes f "/" || includes f backslash) eqn:H1.
  { split; [eauto|]. intros Hn; exfalso; apply Hn.
    rewrite !orb_true_iff, !includes_spec in H1. unfold rejected_name, has_sub. tauto. }
  destruct (startsWith f "/" || drive_prefix f) eqn:H2.
  { split; [eauto|]. intros Hn; exfalso; apply Hn.
    rewrite orb_true_iff, startsWith_spec, drive_prefix_spec in H2.
    unfold rejected_name. tauto. }
  split; [|reflexivity].
  intros Hr. exfalso.
  rewrite !orb_false_iff in H1. rewrite orb_false_iff in H2.
  destruct H1 as [[Ha Hb] Hc], H2 as [Hd He].
  destruct Hr as [E|[E|[E|[E|[E|E]]]]].
  - exact (Hf E).
  - apply includes_spec in E. congruence.
  - apply includes_spec in E. congruence.
  - apply includes_spec in E. congruence.
  - apply startsWith_spec in E. congruence.
  - apply drive_prefix_spec in E. congruence.
Qed.

(* ------------------------------------------------------------------ *)
(** ** Chunking *)

(** All whitespace removed: the coarsest whitespace normalisation. *)
Fixpoint strip_ws (s : string) : string :=
  match s with
  | EmptyString => EmptyString
  | String c t => if is_ws c then strip_ws t else String c (strip_ws t)
  end.

(** C3 *)
(** With overlap 0 the chunker does not disable the overlap: [-Math.floor(0 / 5)]
    is [-0], and [words.slice(-0)] keeps every word, so each new chunk
    repeats the whole previous one.  On ["A. B."] with size 2 the chunks are
    ["A."] and ["A. B."], whose concatenation differs from the text even
    with all whitespace removed. *)
Theorem chunkText_overlap0_repeats_previous_chunk :
  (forall words : list string, js_slice_from words (- (0 / 5))%Z = words) /\
  chunkText "A. B." 2 0 = ["A."; "A. B."] /\
  strip_ws (String.concat "" (chunkText "A. B." 2 0)) <> strip_ws "A. B.".
Proof.
  split; [|split; [reflexivity | vm_compute; discriminate]].
  intros words. unfold js_slice_from.
  change (- (0 / 5))%Z with 0%Z. cbn [Z.ltb Z.compare].
  rewrite Z.min_l by lia. reflexivity.
Qed.

Definition has_nonws (s : string) : bool :=
  existsb (fun c => negb (is_ws c)) (list_ascii_of_string s).

(** A non-empty string whose first and last characters are not whitespace. *)
Definition edge_clean (s : string) : Prop :=
  match list_ascii_of_string s with
  | [] => False
  | a :: l => is_ws a = false /\ is_ws (List.last l a) = false
  end.

Fixpoint all_but_last_nonws (l : list string) : Prop :=
  match l with
  | [] => True
  | x :: t =>
      match t with
      | [] => True
      | _ :: _ => has_nonws x = true /\ all_but_last_nonws t
      end
  end.

Lemma list_ascii_of_string_append (x y : string) :
  list_ascii_of_string (x +:+ y) = (list_ascii_of_string x ++ list_ascii_of_string y)%list.
Proof. induction x as [|c x IH]; simpl; [reflexivity | rewrite IH; reflexivity]. Qed.

Lemma has_nonws_append_r (x y : string) :
  has_nonws y = true -> has_nonws (x +:+ y) = true.
Proof.
  unfold has_nonws. rewrite list_ascii_of_string_append, existsb_app.
  intros ->. apply orb_true_r.
Qed.

Lemma drop_ws_app_nonws (l m : list ascii) :
  existsb (fun c => negb (is_ws c)) l = true -> drop_ws (l ++ m) = (drop_ws l ++ m)%list.
Proof.
  induction l as [|a l IH]; simpl; [discriminate|].
  destruct (is_ws a); simpl; auto.
Qed.

Lemma drop_ws_app_ws (l m : list ascii) :
  existsb (fun c => negb (is_ws c)) l = false -> drop_ws (l ++ m) = drop_ws m.
Proof.
  induction l as [|a l IH]; simpl; [reflexivity|].
  destruct (is_ws a); simpl; auto; discriminate.
Qed.

Lemma drop_ws_head (l : list ascii) :
  existsb (fun c => negb (is_ws c)) l = true ->
  exists a r, drop_ws l = a :: r /\ is_ws a = false.
Proof.
  induction l as [|a l IH]; simpl; [discriminate|].
  destruct (is_ws a) eqn:Ha; simpl; eauto.
Qed.

Lemma drop_ws_all_ws (l : list ascii) :
  existsb (fun c => negb (is_ws c)) l = false -> drop_ws l = [].
Proof. intros H. rewrite <- (app_nil_r l), drop_ws_app_ws by exact H. reflexivity. Qed.

Lemma trim_edge_clean (s : string) : has_nonws s = true -> edge_clean (trim s).
Proof.
  unfold has_nonws, trim, edge_clean. intros H.
  rewrite list_ascii_of_string_of_list_ascii.
  destruct (drop_ws_head _ H) as (a & r & Hd & Ha). rewrite Hd. simpl.
  destruct (existsb (fun c => negb (is_ws c)) (rev r)) eqn:Hr.
  - rewrite drop_ws_app_nonws by exact Hr.
    destruct (drop_ws_head _ Hr) as (b & r' & Hd' & Hb). rewrite Hd'.
    simpl. rewrite rev_app_distr. simpl. split; [exact Ha|].
    rewrite last_last. exact Hb.
  - rewrite drop_ws_app_ws by exact Hr. simpl. rewrite Ha. simpl. auto.
Qed.

Lemma trim_nonempty_has_nonws (s : string) : trim s <> "" -> has_nonws s = true.
Proof.
  unfold trim, has_nonws. intros H.
  destruct (existsb (fun c => negb (is_ws c)) (list_ascii_of_string s)) eqn:E; [reflexivity|].
  exfalso. apply H. rewrite (drop_ws_all_ws _ E). reflexivity.
Qed.

Lemma punct_not_ws (p : ascii) : is_punct p = true -> is_ws p = false.
Proof.
  unfold is_punct. rewrite !orb_true_iff, !Ascii.eqb_eq.
  intros [[ -> | -> ] | -> ]; reflexivity.
Qed.

Lemma split_sentences_aux_shape (s : string) (acc : list ascii) (insep : bool) :
  split_sentences_aux s acc insep <> [] /\
  all_but_last_nonws (split_sentences_aux s acc insep).
Proof.
  revert acc insep; induction s as [|c t IH]; intros acc insep; simpl.
  - split; [discriminate | exact I].
  - destruct insep; [destruct (is_ws c); apply IH|].
    destruct (is_ws c && match acc with p :: _ => is_punct p | [] => false end) eqn:Hc;
      [|apply IH].
    split; [discriminate|].
    destruct (IH [] true) as [Hne Habl].
    destruct (split_sentences_aux t [] true) as [|y ys]; [contradiction|].
    split; [|exact Habl].
    apply andb_true_iff in Hc as [_ Hp].
    destruct acc as [|p acc]; [discriminate|].
    unfold has_nonws, str_of_rev. rewrite list_ascii_of_string_of_list_ascii.
    simpl. rewrite existsb_app. simpl. rewrite (punct_not_ws p Hp). simpl.
    apply orb_true_r.
Qed.

Lemma chunk_loop_clean (sz ov : Z) (sents chs : list string) (cur : string) :
  Forall edge_clean chs ->
  all_but_last_nonws sents ->
  (sents <> [] -> cur = "" \/ has_nonws cur = true) ->
  Forall edge_clean (fst (chunk_loop sz ov sents chs cur)).
Proof.
  revert chs cur; induction sents as [|s rest IH]; intros chs cur Hchs Habl Hcur;
    simpl; [exact Hchs|].
  assert (Hnext : rest <> [] -> has_nonws s = true).
  { intros Hr. destruct rest; [contradiction | exact (proj1 Habl)]. }
  assert (Hrest : all_but_last_nonws rest).
  { destruct rest; [exact I | exact (proj2 Habl)]. }
  destruct ((sz <? slen cur + slen s)%Z && (0 <? slen cur)%Z) eqn:Hc.
  - apply IH; [| exact Hrest |].
    + apply Forall_app. split; [exact Hchs|]. constructor; [|constructor].
      apply trim_edge_clean.
      destruct (Hcur ltac:(discriminate)) as [->|H]; [|exact H].
      apply andb_true_iff in Hc as [_ Hc]. discriminate.
    + intros Hr. right. apply has_nonws_append_r, has_nonws_append_r, Hnext, Hr.
  - apply IH; [exact Hchs | exact Hrest |].
    intros Hr. right. apply has_nonws_append_r, has_nonws_append_r, Hnext, Hr.
Qed.

(** C9 *)
(** For every text and all chunking parameters, every chunk produced by
    [chunkText] is non-empty and neither starts nor ends with whitespace. *)
Theorem chunkText_chunks_trimmed (text : string) (chunkSize overlap : Z) (ch : string) :
  In ch (chunkText text chunkSize overlap) -> edge_clean ch.
Proof.
  unfold chunkText.
  pose proof (split_sentences_aux_shape text [] false) as [_ Habl].
  pose proof (chunk_loop_clean chunkSize overlap (split_sentences text) [] ""
                (List.Forall_nil _) Habl (fun _ => or_introl eq_refl)) as Hloop.
  destruct (chunk_loop chunkSize overlap (split_sentences text) [] "") as [chs cur].
  simpl in Hloop.
  destruct (String.eqb_spec (trim cur) "") as [_|Hne].
  - intros Hin. rewrite List.Forall_forall in Hloop. exact (Hloop ch Hin).
  - intros Hin. apply in_app_or in Hin as [Hin|[<-|[]]].
    + rewrite List.Forall_forall in Hloop. exact (Hloop ch Hin).
    + apply trim_edge_clean, trim_nonempty_has_nonws, Hne.
Qed.

(* ------------------------------------------------------------------ *)
(** ** Tabular normalisation *)

(** The pairs of a formatted row, as the spec describes them: one
    [header: value] per header column, the value being the field at that
    position or the empty string. *)
Definition row_pairs (headers values : list string) : list string :=
  imap (fun i header => header +:+ ": " +:+ value_or_empty values i) headers.

Lemma value_or_empty_padded (values : list string) (n i : nat) :
  (i < n)%nat ->
  value_or_empty (map (value_or_empty values) (seq 0 n)) i = value_or_empty values i.
Proof.
  intros Hi. unfold value_or_empty at 1.
  rewrite nth_error_map, nth_error_seq.
  destruct (Nat.ltb_spec i n); [simpl | lia].
  destruct (String.eqb_spec (value_or_empty values i) "") as [->|_]; reflexivity.
Qed.

Lemma value_or_empty_firstn (values : list string) (n i : nat) :
  (i < n)%nat -> value_or_empty (firstn n values) i = value_or_empty values i.
Proof.
  intros Hi. unfold value_or_empty. rewrite nth_error_firstn.
  destruct (Nat.ltb_spec i n); [reflexivity | lia].
Qed.

(** C10 *)
(** A row with more fields than the header is not handled silently: with
    header [h] and row [x,y] the line is ["h: x"], the extra field is
    dropped, and a column-count warning is emitted. *)
Lemma format_row_extra_field_warns :
  format_row ["h"] 0 "x,y" =
    ("h: x", ["Row 2 has 2 columns but expected 1. Padding with empty values."]).
Proof. reflexivity. Qed.

(** C10 *)
(** Every data row is formatted as exactly one [header: value] pair per
    header column, joined by [" | "]; fields beyond the header count do not
    affect the line; a warning is emitted exactly when the field count
    differs from the header count. *)
Theorem format_row_one_pair_per_header (headers : list string) (rowIndex : nat)
    (row : string) :
  let values := parseCSVLine row in
  fst (format_row headers rowIndex row) = join " | " (row_pairs headers values) /\
  length (row_pairs headers values) = length headers /\
  row_pairs headers values = row_pairs headers (firstn (length headers) values) /\
  (snd (format_row headers rowIndex row) <> [] <-> length values <> length headers).
Proof.
  intros values. unfold format_row, row_pairs. fold values. simpl.
  split; [|split; [|split]].
  - f_equal. apply imap_ext. intros i h Hi.
    apply lookup_lt_Some in Hi.
    rewrite value_or_empty_padded by exact Hi. reflexivity.
  - apply length_imap.
  - apply imap_ext. intros i h Hi.
    apply lookup_lt_Some in Hi.
    rewrite value_or_empty_firstn by exact Hi. reflexivity.
  - destruct (Nat.eqb_spec (length values) (length headers)) as [E|E]; simpl.
    + split; [intros H; contradiction | intros H; contradiction].
    + split; [intros _; exact E | intros _; discriminate].
Qed.

(* ------------------------------------------------------------------ *)
(** ** Searching *)

(** Two tabular documents with header [h]: [a.csv] has the row [foo],
    [b.csv] the row [foo foo]. *)
Definition env_two_csv (re : regex_engine) : env := {|
  csv_listing := Some ["a.csv"; "b.csv"];
  pdf_listing := None;
  read_file := fun t f =>
    match t with
    | csv =>
        if String.eqb f "a.csv" then Some ("h" +:+ String LF "foo")
        else if String.eqb f "b.csv" then Some ("h" +:+ String LF "foo foo")
        else None
    | pdf => None
    end;
  pdfParse := fun _ => None;
  regexMatch := re |}.

Definition search_all (query : string) (topK : option Z) : search_args :=
  {| arg_query := query; arg_filename := None; arg_type := None; arg_topK := topK |}.

(** The same runtime with another regular expression engine. *)
Definition with_engine (E : env) (re : regex_engine) : env :=
  {| csv_listing := csv_listing E; pdf_listing := pdf_listing E;
     read_file := read_file E; pdfParse := pdfParse E; regexMatch := re |}.

Lemma literal_regex_ok : regex_literal_ok literal_regex.
Proof. intros term s H. unfold literal_regex. rewrite H. reflexivity. Qed.

Lemma sum_matches_engines (re1 re2 : regex_engine) (terms : list string) (s : string)
    (sc : nat) :
  regex_literal_ok re1 -> regex_literal_ok re2 -> forallb plain_term terms = true ->
  sum_matches re1 terms (toLowerCase s) sc = sum_matches re2 terms (toLowerCase s) sc.
Proof.
  intros H1 H2. revert sc. induction terms as [|term rest IH]; intros sc Hp; simpl; [reflexivity|].
  simpl in Hp. apply andb_true_iff in Hp. destruct Hp as [Ht Hr].
  rewrite (H1 term s Ht), (H2 term s Ht). apply IH. exact Hr.
Qed.

(** For a query of plain terms, every engine with [regex_literal_ok]
    gives the same scores. *)
Lemma score_engines (re1 re2 : regex_engine) (q text : string) :
  regex_literal_ok re1 -> regex_literal_ok re2 -> forallb plain_term (queryTerms q) = true ->
  score re1 q text = score re2 q text.
Proof.
  intros H1 H2 Hp. unfold score. rewrite (sum_matches_engines re1 re2 _ text 0 H1 H2 Hp).
  reflexivity.
Qed.

Lemma score_chunks_ext (re1 re2 : regex_engine) (q : string) (chs : list DocumentChunk) :
  (forall text, score re1 q text = score re2 q text) ->
  score_chunks re1 q chs = score_chunks re2 q chs.
Proof.
  intros H. induction chs as [|ch rest IH]; simpl; [reflexivity|].
  rewrite H, IH. reflexivity.
Qed.

Lemma searchDocument_ext (re1 re2 : regex_engine) (doc : ParsedDocument) (q : string) (k : Z) :
  (forall text, score re1 q text = score re2 q text) ->
  searchDocument re1 doc q k = searchDocument re2 doc q k.
Proof. intros H. unfold searchDocument. rewrite (score_chunks_ext re1 re2 q _ H). reflexivity. Qed.

Lemma search_loop_engines (E : env) (re : regex_engine) (now : nat) (q : string) (k : Z)
    (docs : list (string * DocumentType)) (c : cache) :
  (forall doc, searchDocument (regexMatch E) doc q k = searchDocument re doc q k) ->
  search_loop E now q k docs c = search_loop (with_engine E re) now q k docs c.
Proof.
  intros H. revert c. induction docs as [|[f t] rest IH]; intros c; [reflexivity|].
  cbn [search_loop].
  change (parseDocument (with_engine E re) now f t c) with (parseDocument E now f t c).
  change (regexMatch (with_engine E re)) with re.
  destruct (parseDocument E now f t c) as [[d|e] c1]; [|apply IH].
  rewrite H. destruct (searchDocument re d q k); rewrite IH; reflexivity.
Qed.

Lemma search_over_engines (E : env) (re : regex_engine) (now : nat) (q : string) (k : Z)
    (docs : list (string * DocumentType)) (c : cache) :
  (forall doc, searchDocument (regexMatch E) doc q k = searchDocument re doc q k) ->
  search_over E now q k docs c = search_over (with_engine E re) now q k docs c.
Proof.
  intros H. unfold search_over. destruct docs as [|d ds]; [reflexivity|].
  rewrite (search_loop_engines E re now q k _ c H). reflexivity.
Qed.

(** C1 *)
(** The tool does not rank across documents: it keeps each document's own
    top [topK], concatenates them in catalog order and cuts the
    concatenation to [topK].  Searching both documents for [foo] with
    [topK = 1] returns the chunk of [a.csv] (score 11) although the chunk of
    [b.csv] scores 12; [foo] is a plain pattern, so this holds for the
    runtime's regular expression engine. *)
Theorem search_documentation_not_globally_ranked (re : regex_engine) :
  regex_literal_ok re ->
  fst (search_documentation (env_two_csv re) 0 (search_all "foo" (Some 1%Z)) ∅) =
    Results "foo"
      [("a.csv", csv, {| content := "h: foo"; pageNumber := 1; chunkIndex := 0 |})] /\
  score re "foo" "h: foo" = Some 11 /\
  score re "foo" "h: foo foo" = Some 12.
Proof.
  intros Hre.
  assert (Hp : forallb plain_term (queryTerms "foo") = true) by reflexivity.
  assert (Hs : forall text, score re "foo" text = score literal_regex "foo" text)
    by (intros text; exact (score_engines re literal_regex "foo" text Hre literal_regex_ok Hp)).
  rewrite !Hs. split; [|split; vm_compute; reflexivity].
  unfold search_documentation.
  rewrite (search_over_engines (env_two_csv re) literal_regex)
    by (intros doc; apply searchDocument_ext; exact Hs).
  vm_compute. reflexivity.
Qed.

(** C2 *)
(** An empty query does not yield an empty result: the empty string occurs
    in every chunk, so every chunk gets the exact-phrase bonus.  The empty
    query has no terms, so no regular expression is built. *)
Lemma search_empty_query_returns_chunks :
  fst (search_documentation (env_two_csv literal_regex) 0 (search_all "" None) ∅) =
    Results ""
      [("a.csv", csv, {| content := "h: foo"; pageNumber := 1; chunkIndex := 0 |});
       ("b.csv", csv, {| content := "h: foo foo"; pageNumber := 1; chunkIndex := 0 |})].
Proof. vm_compute. reflexivity. Qed.

Definition blank (q : string) : bool := forallb is_ws (list_ascii_of_string q).

Lemma toLowerCase_blank (q : string) : blank q = true -> toLowerCase q = q.
Proof.
  unfold blank. induction q as [|c q IH]; simpl; [reflexivity|].
  rewrite andb_true_iff. intros [Hc Hq]. rewrite IH by exact Hq.
  unfold is_ws, is_upper in *.
  rewrite orb_true_iff, !andb_true_iff, Nat.eqb_eq, !Nat.leb_le in Hc.
  destruct (Nat.leb_spec 65 (nat_of_ascii c)); [|reflexivity].
  destruct (Nat.leb_spec (nat_of_ascii c) 90); [lia | reflexivity].
Qed.

Lemma split_ws_aux_blank (s : string) (b : bool) (p : string) :
  blank s = true -> In p (split_ws_aux s [] b) -> p = "".
Proof.
  unfold blank. revert b; induction s as [|c s IH]; intros b; simpl.
  - intros _ [<-|[]]. reflexivity.
  - rewrite andb_true_iff. intros [Hc Hs]. rewrite Hc.
    destruct b; [apply IH; exact Hs|].
    intros [<-|H]; [reflexivity | exact (IH true Hs H)].
Qed.

Lemma queryTerms_blank (q : string) : blank q = true -> queryTerms q = [].
Proof.
  intros Hq. unfold queryTerms. rewrite toLowerCase_blank by exact Hq.
  assert (Hall : forall p, In p (split_ws_aux q [] false) -> p = "")
    by (intros p; apply split_ws_aux_blank; exact Hq).
  unfold split_ws. clear Hq.
  induction (split_ws_aux q [] false) as [|p ps IH]; [reflexivity|].
  simpl. rewrite (Hall p (or_introl eq_refl)). simpl.
  apply IH. intros p' Hp'. apply Hall. right. exact Hp'.
Qed.

Lemma score_blank (re : regex_engine) (q text : string) :
  blank q = true ->
  score re q text = Some (if includes (toLowerCase text) q then 10 else 0).
Proof.
  intros Hq. unfold score. rewrite queryTerms_blank, (toLowerCase_blank q Hq) by exact Hq.
  simpl. destruct (includes (toLowerCase text) q); reflexivity.
Qed.

Lemma score_chunks_map (re : regex_engine) (q : string) (f : string -> nat)
    (chs : list DocumentChunk) :
  (forall text, score re q text = Some (f text)) ->
  score_chunks re q chs = Some (map (fun ch => (ch, f (content ch))) chs).
Proof.
  intros H. induction chs as [|ch rest IH]; simpl; [reflexivity|].
  rewrite H, IH. reflexivity.
Qed.

Lemma insert_desc_const {A} (sc : A -> nat) (n : nat) (x : A) (l : list A) :
  Forall (fun y => sc y = n) l -> sc x = n -> insert_desc sc x l = (l ++ [x])%list.
Proof.
  intros Hl Hx. induction Hl as [|y l Hy Hl IH]; simpl; [reflexivity|].
  rewrite Hy, Hx, Nat.ltb_irrefl, IH. reflexivity.
Qed.

(** A stable sort leaves a list of equal scores in place. *)
Lemma sort_desc_const {A} (sc : A -> nat) (n : nat) (l : list A) :
  Forall (fun y => sc y = n) l -> sort_desc sc l = l.
Proof.
  unfold sort_desc. intros Hl.
  assert (Hgen : forall acc, Forall (fun y => sc y = n) acc ->
            fold_left (fun acc x => insert_desc sc x acc) l acc = (acc ++ l)%list).
  { induction Hl as [|x l Hx Hl IH]; intros acc Hacc; simpl.
    - rewrite app_nil_r. reflexivity.
    - rewrite (insert_desc_const sc n) by assumption.
      rewrite IH.
      + rewrite <- app_assoc. reflexivity.
      + apply Forall_app. split; [exact Hacc | constructor; [exact Hx | constructor]]. }
  rewrite Hgen by constructor. reflexivity.
Qed.

Lemma js_slice_to_map {A B} (f : A -> B) (l : list A) (k : Z) :
  map f (js_slice_to l k) = js_slice_to (map f l) k.
Proof. unfold js_slice_to. rewrite length_map, firstn_map. reflexivity. Qed.

Lemma map_fst_filter_scored {A} (f : A -> nat) (l : list A) :
  map fst (List.filter (fun p => Nat.ltb 0 (snd p)) (map (fun x => (x, f x)) l)) =
  List.filter (fun x => Nat.ltb 0 (f x)) l.
Proof.
  induction l as [|x l IH]; simpl; [reflexivity|].
  destruct (Nat.ltb 0 (f x)); simpl; rewrite IH; reflexivity.
Qed.

(** C2 *)
(** An empty or whitespace-only query has no terms and never fails; a
    chunk then scores 10 when its lower-cased text contains the query
    string and 0 otherwise, so the result is the first [topK] chunks that
    contain the query, in chunk order; for the empty query these are the
    first [topK] chunks of the document. *)
Theorem searchDocument_blank_query (re : regex_engine) (doc : ParsedDocument) (q : string)
    (topK : Z) :
  blank q = true ->
  queryTerms q = [] /\
  searchDocument re doc q topK =
    Some (js_slice_to
      (List.filter (fun ch => includes (toLowerCase (content ch)) q) (chunks doc)) topK) /\
  searchDocument re doc "" topK = Some (js_slice_to (chunks doc) topK).
Proof.
  assert (Hgen : forall q, blank q = true ->
    searchDocument re doc q topK =
      Some (js_slice_to
        (List.filter (fun ch => includes (toLowerCase (content ch)) q) (chunks doc)) topK)).
  { intros q' Hq. unfold searchDocument.
    set (f := fun text => if includes (toLowerCase text) q' then 10 else 0).
    rewrite (score_chunks_map re q' f) by (intros text; apply score_blank; exact Hq).
    f_equal. rewrite (sort_desc_const snd 10).
    - rewrite js_slice_to_map, (map_fst_filter_scored (fun ch => f (content ch))).
      f_equal. apply filter_ext. intros ch. unfold f.
      destruct (includes (toLowerCase (content ch)) q'); reflexivity.
    - apply List.Forall_forall. intros [ch n] Hin.
      apply filter_In in Hin as [Hin Hpos].
      apply in_map_iff in Hin as (ch' & Heq & _). injection Heq as <- <-.
      simpl in *. unfold f in *.
      destruct (includes (toLowerCase (content ch')) q'); [reflexivity | discriminate]. }
  intros Hq. split; [apply queryTerms_blank, Hq|]. split; [apply Hgen, Hq|].
  rewrite Hgen by reflexivity. do 2 f_equal. clear Hgen Hq.
  induction (chunks doc) as [|ch l IH]; simpl; [reflexivity|].
  rewrite IH. destruct (toLowerCase (content ch)); reflexivity.
Qed.

(* ------------------------------------------------------------------ *)
(** ** Failed parses and the cache *)

Lemma parseDocument_err_cache (E : env) (now : nat) (f : string) (t : DocumentType)
    (c : cache) (e : err) :
  fst (parseDocument E now f t c) = Err e -> snd (parseDocument E now f t c) = c.
Proof.
  destruct t; simpl;
    unfold parseCSV, csv_miss, parsePDF, pdf_begin, pdf_open, pdf_finish.
  - destruct (validateFilename f); [|reflexivity].
    destruct (c !! cacheKey csv f); [reflexivity|].
    destruct (read_file E csv f); [|reflexivity].
    destruct (normalizeCSV s) as [[txt ws]|]; [discriminate | reflexivity].
  - destruct (validateFilename f); [|reflexivity].
    destruct (c !! cacheKey pdf f); [reflexivity|].
    destruct (read_file E pdf f); [|reflexivity].
    destruct (pdfParse E s) as [[txt np]|]; [discriminate | reflexivity].
Qed.

Lemma parseDocument_err_miss (E : env) (now : nat) (f : string) (t : DocumentType)
    (c : cache) (e : err) :
  fst (parseDocument E now f t c) = Err e ->
  validateFilename f = Ok tt -> c !! cacheKey t f = None.
Proof.
  destruct t; simpl; unfold parseCSV, parsePDF, pdf_begin; intros H Hv;
    rewrite Hv in H; destruct (c !! _); [discriminate | reflexivity | discriminate | reflexivity].
Qed.

(** C5 *)
(** A failing [parseCSV]/[parsePDF] call returns the cache unchanged; when
    the name passed validation, no entry exists under its key; and the
    next call for the same (type, filename), whatever the storage then
    holds, validates and then goes to storage and parses again. *)
Theorem parse_failure_leaves_cache (E : env) (now : nat) (f : string)
    (t : DocumentType) (c : cache) (e : err) :
  fst (parseDocument E now f t c) = Err e ->
  snd (parseDocument E now f t c) = c /\
  (validateFilename f = Ok tt -> snd (parseDocument E now f t c) !! cacheKey t f = None) /\
  (forall (E' : env) (now' : nat),
     parseDocument E' now' f t (snd (parseDocument E now f t c)) =
       match validateFilename f with
       | Err e' => (Err e', snd (parseDocument E now f t c))
       | Ok _ => doc_miss E' now' f t (snd (parseDocument E now f t c))
       end).
Proof.
  intros H.
  pose proof (parseDocument_err_cache E now f t c e H) as Hc.
  rewrite Hc. split; [reflexivity|]. split.
  - apply (parseDocument_err_miss E now f t c e H).
  - intros E' now'.
    destruct (validateFilename f) as [[]|e'] eqn:Hv.
    + pose proof (parseDocument_err_miss E now f t c e H Hv) as Hm.
      destruct t; simpl; unfold parseCSV, parsePDF, pdf_begin, pdf_miss;
        rewrite Hv, Hm; reflexivity.
    + destruct t; simpl; unfold parseCSV, parsePDF, pdf_begin; rewrite Hv; reflexivity.
Qed.

(* ------------------------------------------------------------------ *)
(** ** Multi-document search *)

Lemma search_loop_app (E : env) (now : nat) (q : string) (k : Z)
    (pre post : list (string * DocumentType)) (c : cache) :
  search_loop E now q k (pre ++ post) c =
    let '(r1, c1) := search_loop E now q k pre c in
    let '(r2, c2) := search_loop E now q k post c1 in
    ((r1 ++ r2)%list, c2).
Proof.
  revert c; induction pre as [|[f t] pre IH]; intros c; simpl.
  - destruct (search_loop E now q k post c); reflexivity.
  - destruct (parseDocument E now f t c) as [[d|e] c1].
    + destruct (searchDocument (regexMatch E) d q k) as [found|]; rewrite IH; [|reflexivity].
      destruct (search_loop E now q k pre c1) as [r1 c2].
      destruct (search_loop E now q k post c2) as [r2 c3].
      rewrite app_assoc. reflexivity.
    + apply IH.
Qed.

(** C7 *)
(** In a search over several documents, a document whose parse fails at
    its turn is skipped: the search answers exactly as if the document were
    not among the candidates, with the results of the other documents,
    and without failing. *)
Theorem search_skips_failing_document (E : env) (now : nat) (q : string) (k : Z)
    (pre post : list (string * DocumentType)) (f : string) (t : DocumentType)
    (c : cache) (e : err) :
  fst (parseDocument E now f t (snd (search_loop E now q k pre c))) = Err e ->
  search_over E now q k (pre ++ (f, t) :: post) c =
    let '(allResults, c') := search_loop E now q k (pre ++ post) c in
    (finish_search q k allResults, c').
Proof.
  intros H.
  assert (Hloop : search_loop E now q k (pre ++ (f, t) :: post) c =
                  search_loop E now q k (pre ++ post) c).
  { rewrite !search_loop_app.
    destruct (search_loop E now q k pre c) as [r1 c1]. simpl in H |- *.
    pose proof (parseDocument_err_cache E now f t c1 e H) as Hc.
    destruct (parseDocument E now f t c1) as [r c2]. simpl in H, Hc. subst r c2.
    reflexivity. }
  unfold search_over. rewrite Hloop.
  destruct pre; reflexivity.
Qed.

(* ------------------------------------------------------------------ *)
(** ** The cache under overlapping calls *)

Lemma cacheKey_inj (t t' : DocumentType) (f f' : string) :
  cacheKey t f = cacheKey t' f' -> t = t' /\ f = f'.
Proof. destruct t, t'; simpl; intros H; inversion H; auto. Qed.

Lemma parseCSV_cache_other (E : env) (now : nat) (f : string) (c : cache) (k : string) :
  k <> cacheKey csv f -> snd (parseCSV E now f c) !! k = c !! k.
Proof.
  intros Hk. unfold parseCSV, csv_miss.
  destruct (validateFilename f); [|reflexivity].
  destruct (c !! cacheKey csv f); [reflexivity|].
  destruct (read_file E csv f); [|reflexivity].
  destruct (normalizeCSV s) as [[txt ws]|]; [|reflexivity].
  apply lookup_insert_ne. congruence.
Qed.

Lemma pdf_finish_cache_other (E : env) (now : nat) (f buf : string) (c : cache)
    (k : string) :
  k <> cacheKey pdf f -> snd (pdf_finish E now f buf c) !! k = c !! k.
Proof.
  intros Hk. unfold pdf_finish.
  destruct (pdfParse E buf) as [[txt np]|]; [|reflexivity].
  apply lookup_insert_ne. congruence.
Qed.

(** No PDF call for key [k] is suspended in its extraction step. *)
Definition no_pending_for (k : string) (w : world) : Prop :=
  Forall (fun tk => cacheKey pdf (task_file tk) <> k) (w_pending w).

(** What a step adds to the storage log and to the returned results. *)
Definition extends_without (k : string) (d : ParsedDocument) (w w' : world) : Prop :=
  exists tnew dnew,
    w_touched w' = (w_touched w ++ tnew)%list /\
    w_done w' = (w_done w ++ dnew)%list /\
    ~ In k tnew /\
    (forall i r, In (i, k, r) dnew -> r = Ok d).

Lemma step_keeps_entry (E : env) (ev : event) (w : world) (t : DocumentType)
    (f : string) (d : ParsedDocument) :
  validateFilename f = Ok tt ->
  w_cache w !! cacheKey t f = Some d ->
  no_pending_for (cacheKey t f) w ->
  w_cache (world_step E ev w) !! cacheKey t f = Some d /\
  no_pending_for (cacheKey t f) (world_step E ev w) /\
  extends_without (cacheKey t f) d w (world_step E ev w).
Proof.
  intros Hv Hd Hnp. unfold extends_without, no_pending_for in *.
  destruct ev as [t' f' | id]; simpl.
  - destruct (string_dec (cacheKey t' f') (cacheKey t f)) as [Heq|Hne].
    + apply cacheKey_inj in Heq as [-> ->].
      assert (Ht : touches_storage t f (w_cache w) = false)
        by (unfold touches_storage; rewrite Hv, Hd; reflexivity).
      rewrite Ht. destruct t.
      * unfold parseCSV. rewrite Hv, Hd. simpl.
        split; [exact Hd|]. split; [exact Hnp|].
        exists [], [(w_next w, cacheKey csv f, Ok d)].
        split; [reflexivity|]. split; [reflexivity|]. split; [intros []|].
        intros i r [Hr|[]]. congruence.
      * unfold pdf_begin. rewrite Hv, Hd. simpl.
        split; [exact Hd|]. split; [exact Hnp|].
        exists [], [(w_next w, cacheKey pdf f, Ok d)].
        split; [reflexivity|]. split; [reflexivity|]. split; [intros []|].
        intros i r [Hr|[]]. congruence.
    + assert (Htn : ~ In (cacheKey t f)
                      (if touches_storage t' f' (w_cache w) then [cacheKey t' f'] else [])).
      { destruct (touches_storage t' f' (w_cache w)); simpl; [|tauto].
        intros [H|[]]. congruence. }
      destruct t'.
      * pose proof (parseCSV_cache_other E (w_clock w) f' (w_cache w) (cacheKey t f)
                      (fun H => Hne (eq_sym H))) as Hc.
        destruct (parseCSV E (w_clock w) f' (w_cache w)) as [r c'] eqn:Hp. simpl in Hc |- *.
        split; [rewrite Hc; exact Hd|]. split; [exact Hnp|].
        eexists _, [(w_next w, cacheKey csv f', r)].
        split; [reflexivity|]. split; [reflexivity|]. split; [exact Htn|].
        intros i r' [Hr|[]]. injection Hr as _ Hk _. congruence.
      * destruct (pdf_begin E f' (w_cache w)) as [r|buf]; simpl.
        -- split; [exact Hd|]. split; [exact Hnp|].
           eexists _, [(w_next w, cacheKey pdf f', r)].
           split; [reflexivity|]. split; [reflexivity|]. split; [exact Htn|].
           intros i r' [Hr|[]]. injection Hr as _ Hk _. congruence.
        -- split; [exact Hd|]. split.
           ++ apply Forall_app. split; [exact Hnp|]. constructor; [|constructor].
              simpl. exact Hne.
           ++ exists (if touches_storage pdf f' (w_cache w) then [cacheKey pdf f'] else []), [].
              split; [reflexivity|]. split; [rewrite app_nil_r; reflexivity|].
              split; [exact Htn | intros i r []].
  - destruct (find_task id (w_pending w)) as [tk|] eqn:Hf; simpl.
    + apply find_some in Hf as [Hin _].
      assert (Hk : cacheKey pdf (task_file tk) <> cacheKey t f)
        by (rewrite List.Forall_forall in Hnp; exact (Hnp tk Hin)).
      pose proof (pdf_finish_cache_other E (w_clock w) (task_file tk) (task_buf tk)
                    (w_cache w) (cacheKey t f) (fun H => Hk (eq_sym H))) as Hc.
      destruct (pdf_finish E (w_clock w) (task_file tk) (task_buf tk) (w_cache w))
        as [r c'] eqn:Hp. simpl in Hc |- *.
      split; [rewrite Hc; exact Hd|]. split.
      * apply List.Forall_forall. intros tk' Htk'.
        apply filter_In in Htk' as [Htk' _].
        rewrite List.Forall_forall in Hnp. exact (Hnp tk' Htk').
      * exists [], [(id, cacheKey pdf (task_file tk), r)].
        split; [rewrite app_nil_r; reflexivity|]. split; [reflexivity|].
        split; [intros []|].
        intros i r' [Hr|[]]. injection Hr as _ Hk' _. congruence.
    + split; [exact Hd|]. split; [exact Hnp|].
      exists [], []. rewrite !app_nil_r.
      split; [reflexivity|]. split; [reflexivity|]. split; [intros []| intros i r []].
Qed.

(** One PDF document [x.pdf] whose extraction succeeds. *)
Definition env_one_pdf : env := {|
  csv_listing := None;
  pdf_listing := Some ["x.pdf"];
  read_file := fun t f =>
    match t with
    | pdf => if String.eqb f "x.pdf" then Some "%PDF" else None
    | csv => None
    end;
  pdfParse := fun _ => Some ("Hello world.", 1);
  regexMatch := literal_regex |}.

(** The result returned to call [id]. *)
Definition result_of (id : nat) (w : world) : option (result ParsedDocument) :=
  match List.find (fun e => Nat.eqb (fst (fst e)) id) (w_done w) with
  | Some (_, _, r) => Some r
  | None => None
  end.

(** C6 *)
(** The first call for [pdf:x.pdf] (call 0) succeeds, yet the storage is
    read twice for the key and a later call (call 2) returns a different
    document: call 1 started before call 0 finished, parsed again and
    replaced the cache entry. *)
Lemma first_success_not_final_under_overlap :
  let w := run env_one_pdf
             [Call pdf "x.pdf"; Call pdf "x.pdf"; Resume 0; Resume 1; Call pdf "x.pdf"]
             world0 in
  w_touched w = ["pdf:x.pdf"; "pdf:x.pdf"] /\
  match result_of 0 w, result_of 2 w with
  | Some (Ok d0), Some (Ok d2) => d0 <> d2
  | _, _ => False
  end.
Proof. vm_compute. split; [reflexivity | discriminate]. Qed.

(** C6 *)
(** Once a key holds a cached document and no PDF call for that key is
    suspended in its extraction, the entry never changes, whatever calls
    follow in whatever interleaving; every later call for the key returns
    that document, and none of them touches storage for the key. *)
Theorem cached_entry_stable (E : env) (evs : list event) (w : world)
    (t : DocumentType) (f : string) (d : ParsedDocument) :
  validateFilename f = Ok tt ->
  w_cache w !! cacheKey t f = Some d ->
  no_pending_for (cacheKey t f) w ->
  w_cache (run E evs w) !! cacheKey t f = Some d /\
  no_pending_for (cacheKey t f) (run E evs w) /\
  extends_without (cacheKey t f) d w (run E evs w).
Proof.
  intros Hv. revert w; induction evs as [|ev evs IH]; intros w Hd Hnp; simpl.
  - split; [exact Hd|]. split; [exact Hnp|].
    exists [], []. rewrite !app_nil_r.
    split; [reflexivity|]. split; [reflexivity|]. split; [intros []| intros i r []].
  - destruct (step_keeps_entry E ev w t f d Hv Hd Hnp)
      as (Hd1 & Hnp1 & t1 & d1 & Ht1 & Hd1' & Hnt1 & Hr1).
    destruct (IH _ Hd1 Hnp1) as (Hd2 & Hnp2 & t2 & d2 & Ht2 & Hd2' & Hnt2 & Hr2).
    unfold run in *.
    split; [exact Hd2|]. split; [exact Hnp2|].
    exists (t1 ++ t2)%list, (d1 ++ d2)%list.
    rewrite Ht2, Hd2', Ht1, Hd1', !app_assoc.
    split; [reflexivity|]. split; [reflexivity|].
    split.
    + intros Hin. apply in_app_or in Hin as [Hin|Hin]; contradiction.
    + intros i r Hin. apply in_app_or in Hin as [Hin|Hin]; eauto.
Qed.

(** C8 *)
(** Two PDF calls for the same uncached key that both start before either
    finishes both go to storage and both parse successfully. *)
Lemma same_key_race_parses_twice :
  let w := run env_one_pdf
             [Call pdf "x.pdf"; Call pdf "x.pdf"; Resume 0; Resume 1] world0 in
  w_touched w = ["pdf:x.pdf"; "pdf:x.pdf"] /\
  match result_of 0 w, result_of 1 w with
  | Some (Ok d0), Some (Ok d1) => d0 <> d1
  | _, _ => False
  end.
Proof. vm_compute. split; [reflexivity | discriminate]. Qed.

(** The cache key an event works on, if any. *)
Definition event_key (ev : event) (w : world) : option string :=
  match ev with
  | Call t f => Some (cacheKey t f)
  | Resume id => option_map (fun tk => cacheKey pdf (task_file tk)) (find_task id (w_pending w))
  end.

Definition pdf_doc (f text : string) (np now : nat) : ParsedDocument :=
  {| filename := f; fullText := text;
     chunks := imap (fun index content =>
                 {| content := content; pageNumber := index / 3 + 1;
                    chunkIndex := index |}) (chunkText_default text);
     pageCount := np; parsedAt := now; doc_type := pdf |}.

Lemma step_call_pdf_miss (E : env) (w : world) (f buf : string) :
  validateFilename f = Ok tt ->
  w_cache w !! cacheKey pdf f = None ->
  read_file E pdf f = Some buf ->
  world_step E (Call pdf f) w =
    {| w_cache := w_cache w;
       w_pending := (w_pending w ++ [{| task_id := w_next w; task_file := f;
                                        task_buf := buf |}])%list;
       w_touched := (w_touched w ++ [cacheKey pdf f])%list;
       w_done := w_done w; w_clock := S (w_clock w); w_next := S (w_next w) |}.
Proof.
  intros Hv Hc Hr. unfold world_step, touches_storage, pdf_begin, pdf_open.
  rewrite Hv, Hc, Hr. reflexivity.
Qed.

Lemma step_resume_found (E : env) (w : world) (id : nat) (tk : task) :
  find_task id (w_pending w) = Some tk ->
  world_step E (Resume id) w =
    {| w_cache := snd (pdf_finish E (w_clock w) (task_file tk) (task_buf tk) (w_cache w));
       w_pending := List.filter (fun tk' => negb (Nat.eqb (task_id tk') id)) (w_pending w);
       w_touched := w_touched w;
       w_done := (w_done w ++ [(id, cacheKey pdf (task_file tk),
                    fst (pdf_finish E (w_clock w) (task_file tk) (task_buf tk) (w_cache w)))])%list;
       w_clock := S (w_clock w); w_next := w_next w |}.
Proof.
  intros Hf. unfold world_step. rewrite Hf.
  destruct (pdf_finish E (w_clock w) (task_file tk) (task_buf tk) (w_cache w)); reflexivity.
Qed.

Lemma find_task_skip_older (l r : list task) (n id : nat) :
  Forall (fun tk => task_id tk < n)%nat l -> (n <= id)%nat ->
  find_task id (l ++ r) = find_task id r.
Proof.
  intros Hl Hid. induction Hl as [|tk l Htk Hl IH]; simpl; [reflexivity|].
  unfold find_task in *. simpl. destruct (Nat.eqb_spec (task_id tk) id); [lia | exact IH].
Qed.

Lemma filter_keep_older (l : list task) (n : nat) :
  Forall (fun tk => task_id tk < n)%nat l ->
  List.filter (fun tk' => negb (Nat.eqb (task_id tk') n)) l = l.
Proof.
  intros Hl. induction Hl as [|tk l Htk Hl IH]; simpl; [reflexivity|].
  destruct (Nat.eqb_spec (task_id tk) n); [lia|]. simpl. rewrite IH. reflexivity.
Qed.

Lemma pdf_finish_ok (E : env) (now : nat) (f buf text : string) (np : nat) (c : cache) :
  pdfParse E buf = Some (text, np) ->
  pdf_finish E now f buf c =
    (Ok (pdf_doc f text np now), <[cacheKey pdf f := pdf_doc f text np now]> c).
Proof. intros H. unfold pdf_finish. rewrite H. reflexivity. Qed.

(** Case analysis on one step of the event loop. *)
Ltac world_step_cases E ev w :=
  unfold world_step; destruct ev as [t0 f0 | id0];
  [ destruct t0;
    [ destruct (parseCSV E (w_clock w) f0 (w_cache w))
    | destruct (pdf_begin E f0 (w_cache w)) ]
  | destruct (find_task id0 (w_pending w)) as [tk0|];
    [ destruct (pdf_finish E (w_clock w) (task_file tk0) (task_buf tk0) (w_cache w)) | ] ];
  cbn [w_cache w_pending w_touched w_done w_clock w_next].

Lemma step_clock (E : env) (ev : event) (w : world) :
  w_clock (world_step E ev w) = S (w_clock w).
Proof. world_step_cases E ev w; reflexivity. Qed.

Lemma run_clock (E : env) (evs : list event) (w : world) :
  w_clock (run E evs w) = length evs + w_clock w.
Proof.
  revert w. induction evs as [|ev evs IH]; intros w; [reflexivity|].
  change (run E (ev :: evs) w) with (run E evs (world_step E ev w)).
  rewrite IH, step_clock. simpl. lia.
Qed.

Lemma step_next_mono (E : env) (ev : event) (w : world) :
  w_next w <= w_next (world_step E ev w).
Proof. world_step_cases E ev w; lia. Qed.

Lemma run_next_mono (E : env) (evs : list event) (w : world) :
  w_next w <= w_next (run E evs w).
Proof.
  revert w. induction evs as [|ev evs IH]; intros w; [reflexivity|].
  change (run E (ev :: evs) w) with (run E evs (world_step E ev w)).
  pose proof (step_next_mono E ev w). specialize (IH (world_step E ev w)). lia.
Qed.

(** Every suspended call has an id below the next call id. *)
Definition ids_below (w : world) : Prop :=
  Forall (fun tk => task_id tk < w_next w) (w_pending w).

Lemma step_ids_below (E : env) (ev : event) (w : world) :
  ids_below w -> ids_below (world_step E ev w).
Proof.
  unfold ids_below. intros H. rewrite List.Forall_forall in H.
  world_step_cases E ev w; apply List.Forall_forall.
  - intros tk Hin. specialize (H tk Hin). lia.
  - intros tk Hin. specialize (H tk Hin). lia.
  - intros tk Hin. apply in_app_or in Hin as [Hin|[<-|[]]]; [specialize (H tk Hin)|simpl]; lia.
  - intros tk Hin. apply filter_In in Hin as [Hin _]. exact (H tk Hin).
  - exact H.
Qed.

Lemma run_ids_below (E : env) (evs : list event) (w : world) :
  ids_below w -> ids_below (run E evs w).
Proof.
  revert w. induction evs as [|ev evs IH]; intros w H; [exact H|].
  change (run E (ev :: evs) w) with (run E evs (world_step E ev w)).
  apply IH, step_ids_below, H.
Qed.

Lemma find_task_app_l (id : nat) (l r : list task) (tk : task) :
  find_task id l = Some tk -> find_task id (l ++ r) = Some tk.
Proof.
  unfold find_task. induction l as [|x l IH]; simpl; [discriminate|].
  destruct (Nat.eqb (task_id x) id); [exact (fun H => H) | exact IH].
Qed.

Lemma find_task_filter_other (id id' : nat) (l : list task) :
  id' <> id ->
  find_task id (List.filter (fun tk' => negb (Nat.eqb (task_id tk') id')) l) = find_task id l.
Proof.
  intros Hne. unfold find_task. induction l as [|x l IH]; simpl; [reflexivity|].
  destruct (Nat.eqb_spec (task_id x) id') as [Hx|Hx]; simpl.
  - assert (Hxi : Nat.eqb (task_id x) id = false) by (apply Nat.eqb_neq; lia).
    rewrite Hxi. exact IH.
  - destruct (Nat.eqb (task_id x) id); [reflexivity | exact IH].
Qed.

(** A suspended call stays suspended, with its buffer, until it is resumed. *)
Lemma step_keeps_task (E : env) (ev : event) (w : world) (id : nat) (tk : task) :
  find_task id (w_pending w) = Some tk -> ev <> Resume id ->
  find_task id (w_pending (world_step E ev w)) = Some tk.
Proof.
  intros H Hev. world_step_cases E ev w.
  - exact H.
  - exact H.
  - apply find_task_app_l. exact H.
  - rewrite find_task_filter_other; [exact H|]. congruence.
  - exact H.
Qed.

Lemma run_keeps_task (E : env) (evs : list event) (w : world) (id : nat) (tk : task) :
  find_task id (w_pending w) = Some tk -> ~ In (Resume id) evs ->
  find_task id (w_pending (run E evs w)) = Some tk.
Proof.
  revert w. induction evs as [|ev evs IH]; intros w H Hn; [exact H|].
  change (run E (ev :: evs) w) with (run E evs (world_step E ev w)).
  apply IH.
  - apply step_keeps_task; [exact H|]. intros ->. apply Hn. left. reflexivity.
  - intros Hin. apply Hn. right. exact Hin.
Qed.

Lemma step_cache_other (E : env) (w1 : world) (ev : event) (k : string) :
  event_key ev w1 <> Some k ->
  w_cache (world_step E ev w1) !! k = w_cache w1 !! k.
Proof.
  intros Hk. destruct ev as [t' f' | id]; simpl in Hk |- *.
  - assert (Hne : k <> cacheKey t' f') by congruence.
    destruct t'.
    + pose proof (parseCSV_cache_other E (w_clock w1) f' (w_cache w1) k Hne) as H.
      destruct (parseCSV E (w_clock w1) f' (w_cache w1)); exact H.
    + destruct (pdf_begin E f' (w_cache w1)); reflexivity.
  - destruct (find_task id (w_pending w1)) as [tk|]; simpl in Hk |- *; [|reflexivity].
    assert (Hne : k <> cacheKey pdf (task_file tk)) by congruence.
    pose proof (pdf_finish_cache_other E (w_clock w1) (task_file tk) (task_buf tk)
                  (w_cache w1) k Hne) as H.
    destruct (pdf_finish E (w_clock w1) (task_file tk) (task_buf tk) (w_cache w1)).
    exact H.
Qed.

Lemma resume_returns (E : env) (w1 : world) (id : nat) :
  In id (map task_id (w_pending w1)) ->
  exists e, w_done (world_step E (Resume id) w1) = (w_done w1 ++ [e])%list.
Proof.
  intros Hin. destruct (find_task id (w_pending w1)) as [tk|] eqn:Hf.
  - rewrite (step_resume_found E w1 id tk Hf). simpl. eauto.
  - exfalso. apply in_map_iff in Hin as (tk & Htk & Hin).
    pose proof (find_none _ _ Hf tk Hin) as H. simpl in H.
    rewrite Htk, Nat.eqb_refl in H. discriminate.
Qed.

(** C8 *)
(** Parses of one key are not serialised.  Take a PDF call for an uncached
    key (call [n]), any events that do not resume it and after which the
    key is still uncached, a second PDF call for the same key (call [m]),
    any events that resume neither call, then the resumption of one of the
    two calls, any events that do not resume the other, and the resumption
    of the other, in either order.  Both calls read storage for the key,
    both run the extraction and return a document, the two documents
    differ, and the cache keeps the document of the call that finishes
    last.  Calls on different keys do not interfere: a step of a call
    never changes the cache entry of another key, and a suspended call can
    always resume and return its result. *)
Theorem same_key_calls_not_serialized (E : env) (w : world) (f buf text : string)
    (np : nat) (evs1 evs2 evs3 : list event) (a b : nat) :
  let k := cacheKey pdf f in
  let n := w_next w in
  let w1 := run E (Call pdf f :: evs1) w in
  let m := w_next w1 in
  let w2 := run E (Call pdf f :: evs2) w1 in
  let w3 := world_step E (Resume a) w2 in
  let w4 := run E evs3 w3 in
  let w5 := world_step E (Resume b) w4 in
  validateFilename f = Ok tt ->
  w_cache w !! k = None ->
  ids_below w ->
  read_file E pdf f = Some buf ->
  pdfParse E buf = Some (text, np) ->
  ~ In (Resume n) evs1 ->
  w_cache w1 !! k = None ->
  (a = n /\ b = m \/ a = m /\ b = n) ->
  ~ In (Resume a) evs2 -> ~ In (Resume b) evs2 -> ~ In (Resume b) evs3 ->
  (w_touched (world_step E (Call pdf f) w) = (w_touched w ++ [k])%list /\
   w_touched (world_step E (Call pdf f) w1) = (w_touched w1 ++ [k])%list /\
   w_done w3 = (w_done w2 ++ [(a, k, Ok (pdf_doc f text np (w_clock w2)))])%list /\
   w_cache w3 !! k = Some (pdf_doc f text np (w_clock w2)) /\
   w_done w5 = (w_done w4 ++ [(b, k, Ok (pdf_doc f text np (w_clock w4)))])%list /\
   w_cache w5 !! k = Some (pdf_doc f text np (w_clock w4)) /\
   pdf_doc f text np (w_clock w2) <> pdf_doc f text np (w_clock w4)) /\
  (forall (w' : world) (ev : event) (k' : string),
     event_key ev w' <> Some k' ->
     w_cache (world_step E ev w') !! k' = w_cache w' !! k') /\
  (forall (w' : world) (id : nat),
     In id (map task_id (w_pending w')) ->
     exists e, w_done (world_step E (Resume id) w') = (w_done w' ++ [e])%list).
Proof.
  intros k n w1 m w2 w3 w4 w5 Hv Hc Hids Hr Hp Hn1 Hc1 Hab Ha2 Hb2 Hb3.
  split; [|split; [exact (step_cache_other E) | exact (resume_returns E)]].
  set (tkof := fun id => {| task_id := id; task_file := f; task_buf := buf |}).
  assert (Hw1 : w1 = run E evs1 (world_step E (Call pdf f) w)) by reflexivity.
  assert (Hw2 : w2 = run E evs2 (world_step E (Call pdf f) w1)) by reflexivity.
  assert (Hw4 : w4 = run E (Resume a :: evs3) w2) by reflexivity.
  assert (Hm : m = w_next w1) by reflexivity.
  assert (Hw3 : w3 = world_step E (Resume a) w2) by reflexivity.
  assert (Hw5 : w5 = world_step E (Resume b) w4) by reflexivity.
  clearbody w5 w4 w3 w2 m w1.
  pose proof (step_call_pdf_miss E w f buf Hv Hc Hr) as Hs0.
  pose proof (step_call_pdf_miss E w1 f buf Hv Hc1 Hr) as Hs1.
  (* call n is suspended until it is resumed *)
  assert (Hf0 : find_task n (w_pending (world_step E (Call pdf f) w)) = Some (tkof n)).
  { rewrite Hs0. cbn [w_pending]. rewrite (find_task_skip_older _ _ n n Hids) by lia.
    unfold find_task. simpl. rewrite Nat.eqb_refl. reflexivity. }
  assert (Hf1 : find_task n (w_pending w1) = Some (tkof n))
    by (rewrite Hw1; exact (run_keeps_task E evs1 _ n _ Hf0 Hn1)).
  assert (Hids1 : ids_below w1)
    by (rewrite Hw1; apply run_ids_below, step_ids_below, Hids).
  assert (Hnm : n < m).
  { rewrite Hm, Hw1. pose proof (run_next_mono E evs1 (world_step E (Call pdf f) w)) as H.
    rewrite Hs0 in H |- *. cbn [w_next] in H. unfold n. lia. }
  (* both calls are suspended after the second one starts *)
  assert (Hfm : find_task m (w_pending (world_step E (Call pdf f) w1)) = Some (tkof m)).
  { rewrite Hs1. cbn [w_pending]. rewrite Hm. rewrite (find_task_skip_older _ _ _ _ Hids1) by lia.
    unfold find_task. simpl. rewrite Nat.eqb_refl. reflexivity. }
  assert (Hfn : find_task n (w_pending (world_step E (Call pdf f) w1)) = Some (tkof n))
    by (rewrite Hs1; cbn [w_pending]; apply find_task_app_l; exact Hf1).
  assert (Hab2 : forall id, id = a \/ id = b -> find_task id (w_pending w2) = Some (tkof id)).
  { intros id Hid. rewrite Hw2.
    assert (Hnot : ~ In (Resume id) evs2) by (destruct Hid as [->| ->]; assumption).
    destruct Hab as [[-> ->]|[-> ->]]; destruct Hid as [->| ->];
      apply run_keeps_task; assumption. }
  assert (Hne : a <> b) by (destruct Hab as [[-> ->]|[-> ->]]; lia).
  (* the first resumption *)
  assert (Hr3 := step_resume_found E w2 a (tkof a) (Hab2 a (or_introl eq_refl))).
  unfold tkof in Hr3. cbn [task_file task_buf] in Hr3.
  rewrite (pdf_finish_ok E _ _ _ text np _ Hp) in Hr3. cbn [fst snd] in Hr3.
  (* the second resumption *)
  assert (Hfb : find_task b (w_pending w4) = Some (tkof b)).
  { rewrite Hw4. apply run_keeps_task; [exact (Hab2 b (or_intror eq_refl))|].
    intros [Heq|Hin]; [injection Heq as Heq; lia | exact (Hb3 Hin)]. }
  assert (Hr5 := step_resume_found E w4 b (tkof b) Hfb).
  unfold tkof in Hr5. cbn [task_file task_buf] in Hr5.
  rewrite (pdf_finish_ok E _ _ _ text np _ Hp) in Hr5. cbn [fst snd] in Hr5.
  assert (Hclk : w_clock w4 = length evs3 + S (w_clock w2))
    by (rewrite Hw4; change (run E (Resume a :: evs3) w2)
          with (run E evs3 (world_step E (Resume a) w2));
        rewrite run_clock, step_clock; reflexivity).
  split; [rewrite Hs0; reflexivity|]. split; [rewrite Hs1; reflexivity|].
  rewrite Hw3, Hw5, Hr3, Hr5. cbn [w_done w_cache].
  split; [reflexivity|]. split; [apply lookup_insert_eq|].
  split; [reflexivity|]. split; [apply lookup_insert_eq|].
  intros H. apply (f_equal parsedAt) in H. simpl in H. lia.
Qed.

(* ------------------------------------------------------------------ *)
(** ** Instances of the theorems on concrete inputs *)

Lemma search_documentation_not_globally_ranked_witness :
  regex_literal_ok literal_regex /\
  (fst (search_documentation (env_two_csv literal_regex) 0 (search_all "foo" (Some 1%Z)) ∅) =
     Results "foo"
       [("a.csv", csv, {| content := "h: foo"; pageNumber := 1; chunkIndex := 0 |})] /\
   score literal_regex "foo" "h: foo" = Some 11 /\
   score literal_regex "foo" "h: foo foo" = Some 12).
Proof.
  split; [exact literal_regex_ok|].
  exact (search_documentation_not_globally_ranked literal_regex literal_regex_ok).
Defined.

Lemma chunkText_chunks_trimmed_witness :
  In "A." (chunkText "A. B." 2 0) /\ edge_clean "A.".
Proof.
  assert (H : In "A." (chunkText "A. B." 2 0)) by (vm_compute; left; reflexivity).
  split; [exact H | exact (chunkText_chunks_trimmed "A. B." 2 0 "A." H)].
Defined.

(** A document with chunks ["a  b"] and ["c"]. *)
Definition doc_two_chunks : ParsedDocument :=
  {| filename := "d.pdf"; fullText := "a  b c";
     chunks := [{| content := "a  b"; pageNumber := 1; chunkIndex := 0 |};
                {| content := "c"; pageNumber := 1; chunkIndex := 1 |}];
     pageCount := 1; parsedAt := 0; doc_type := pdf |}.

Lemma searchDocument_blank_query_witness :
  blank "  " = true /\
  (queryTerms "  " = [] /\
   searchDocument literal_regex doc_two_chunks "  " 5 =
     Some (js_slice_to (List.filter (fun ch => includes (toLowerCase (content ch)) "  ")
                          (chunks doc_two_chunks)) 5) /\
   searchDocument literal_regex doc_two_chunks "" 5 =
     Some (js_slice_to (chunks doc_two_chunks) 5)).
Proof.
  assert (H : blank "  " = true) by reflexivity.
  split; [exact H | exact (searchDocument_blank_query literal_regex doc_two_chunks "  " 5 H)].
Defined.

Lemma parse_failure_leaves_cache_witness :
  let E := env_two_csv literal_regex in
  let c : cache := ∅ in
  let e := NotFoundError "CSV file not found: missing.csv" in
  fst (parseDocument E 0 "missing.csv" csv c) = Err e /\
  (snd (parseDocument E 0 "missing.csv" csv c) = c /\
   (validateFilename "missing.csv" = Ok tt ->
      snd (parseDocument E 0 "missing.csv" csv c) !! cacheKey csv "missing.csv" = None) /\
   (forall (E' : env) (now' : nat),
      parseDocument E' now' "missing.csv" csv (snd (parseDocument E 0 "missing.csv" csv c)) =
        match validateFilename "missing.csv" with
        | Err e' => (Err e', snd (parseDocument E 0 "missing.csv" csv c))
        | Ok _ => doc_miss E' now' "missing.csv" csv (snd (parseDocument E 0 "missing.csv" csv c))
        end)).
Proof.
  intros E c e.
  assert (H : fst (parseDocument E 0 "missing.csv" csv c) = Err e)
    by (vm_compute; reflexivity).
  split; [exact H | exact (parse_failure_leaves_cache E 0 "missing.csv" csv c e H)].
Defined.

Lemma search_skips_failing_document_witness :
  let E := env_two_csv literal_regex in
  let pre := [("a.csv", csv)] in
  let post := [("b.csv", csv)] in
  let c : cache := ∅ in
  let e := NotFoundError "CSV file not found: missing.csv" in
  fst (parseDocument E 0 "missing.csv" csv (snd (search_loop E 0 "foo" 5 pre c))) = Err e /\
  search_over E 0 "foo" 5 (pre ++ ("missing.csv", csv) :: post) c =
    (let '(allResults, c') := search_loop E 0 "foo" 5 (pre ++ post) c in
     (finish_search "foo" 5 allResults, c')).
Proof.
  intros E pre post c e.
  assert (H : fst (parseDocument E 0 "missing.csv" csv
                     (snd (search_loop E 0 "foo" 5 pre c))) = Err e)
    by (vm_compute; reflexivity).
  split; [exact H|].
  exact (search_skips_failing_document E 0 "foo" 5 pre post "missing.csv" csv c e H).
Defined.

Lemma cached_entry_stable_witness :
  let E := env_one_pdf in
  let w := run E [Call pdf "x.pdf"; Resume 0] world0 in
  let d := pdf_doc "x.pdf" "Hello world." 1 1 in
  let evs := [Call pdf "x.pdf"; Call csv "a.csv"; Call pdf "x.pdf"] in
  (validateFilename "x.pdf" = Ok tt /\
   w_cache w !! cacheKey pdf "x.pdf" = Some d /\
   no_pending_for (cacheKey pdf "x.pdf") w) /\
  (w_cache (run E evs w) !! cacheKey pdf "x.pdf" = Some d /\
   no_pending_for (cacheKey pdf "x.pdf") (run E evs w) /\
   extends_without (cacheKey pdf "x.pdf") d w (run E evs w)).
Proof.
  intros E w d evs.
  assert (Hv : validateFilename "x.pdf" = Ok tt) by reflexivity.
  assert (Hd : w_cache w !! cacheKey pdf "x.pdf" = Some d) by (vm_compute; reflexivity).
  assert (Hnp : no_pending_for (cacheKey pdf "x.pdf") w) by (vm_compute; constructor).
  split; [split; [exact Hv | split; [exact Hd | exact Hnp]]|].
  exact (cached_entry_stable E evs w pdf "x.pdf" d Hv Hd Hnp).
Defined.

Lemma same_key_calls_not_serialized_witness :
  let E := env_one_pdf in
  let w := world0 in
  let f := "x.pdf" in
  let evs1 := [Call csv "a.csv"] in
  let evs2 := [Call pdf "y.pdf"] in
  let evs3 := [Call pdf "x.pdf"] in
  let a := 2 in
  let b := 0 in
  let k := cacheKey pdf f in
  let n := w_next w in
  let w1 := run E (Call pdf f :: evs1) w in
  let m := w_next w1 in
  let w2 := run E (Call pdf f :: evs2) w1 in
  let w3 := world_step E (Resume a) w2 in
  let w4 := run E evs3 w3 in
  let w5 := world_step E (Resume b) w4 in
  (validateFilename f = Ok tt /\
   w_cache w !! k = None /\
   ids_below w /\
   read_file E pdf f = Some "%PDF" /\
   pdfParse E "%PDF" = Some ("Hello world.", 1) /\
   ~ In (Resume n) evs1 /\
   w_cache w1 !! k = None /\
   (a = n /\ b = m \/ a = m /\ b = n) /\
   ~ In (Resume a) evs2 /\ ~ In (Resume b) evs2 /\ ~ In (Resume b) evs3) /\
  ((w_touched (world_step E (Call pdf f) w) = (w_touched w ++ [k])%list /\
    w_touched (world_step E (Call pdf f) w1) = (w_touched w1 ++ [k])%list /\
    w_done w3 = (w_done w2 ++ [(a, k, Ok (pdf_doc f "Hello world." 1 (w_clock w2)))])%list /\
    w_cache w3 !! k = Some (pdf_doc f "Hello world." 1 (w_clock w2)) /\
    w_done w5 = (w_done w4 ++ [(b, k, Ok (pdf_doc f "Hello world." 1 (w_clock w4)))])%list /\
    w_cache w5 !! k = Some (pdf_doc f "Hello world." 1 (w_clock w4)) /\
    pdf_doc f "Hello world." 1 (w_clock w2) <> pdf_doc f "Hello world." 1 (w_clock w4)) /\
   (forall (w' : world) (ev : event) (k' : string),
      event_key ev w' <> Some k' ->
      w_cache (world_step E ev w') !! k' = w_cache w' !! k') /\
   (forall (w' : world) (id : nat),
      In id (map task_id (w_pending w')) ->
      exists e, w_done (world_step E (Resume id) w') = (w_done w' ++ [e])%list)).
Proof.
  intros E w f evs1 evs2 evs3 a b k n w1 m w2 w3 w4 w5.
  assert (Hv : validateFilename f = Ok tt) by reflexivity.
  assert (Hc : w_cache w !! k = None) by (vm_compute; reflexivity).
  assert (Hids : ids_below w) by constructor.
  assert (Hr : read_file E pdf f = Some "%PDF") by reflexivity.
  assert (Hp : pdfParse E "%PDF" = Some ("Hello world.", 1)) by reflexivity.
  assert (Hn1 : ~ In (Resume n) evs1) by (intros [H|[]]; discriminate).
  assert (Hc1 : w_cache w1 !! k = None) by (vm_compute; reflexivity).
  assert (Hab : a = n /\ b = m \/ a = m /\ b = n) by (right; vm_compute; split; reflexivity).
  assert (Ha2 : ~ In (Resume a) evs2) by (intros [H|[]]; discriminate).
  assert (Hb2 : ~ In (Resume b) evs2) by (intros [H|[]]; discriminate).
  assert (Hb3 : ~ In (Resume b) evs3) by (intros [H|[]]; discriminate).
  split; [repeat split; assumption|].
  exact (same_key_calls_not_serialized E w f "%PDF" "Hello world." 1 evs1 evs2 evs3 a b
           Hv Hc Hids Hr Hp Hn1 Hc1 Hab Ha2 Hb2 Hb3).
Defined.

(* ------------------------------------------------------------------ *)
(** * Further properties of the engine *)

(** ** The per-document ranking of [searchDocument] *)

(** A list in descending order of [sc]. *)
Fixpoint sorted_by {A} (sc : A -> nat) (l : list A) : Prop :=
  match l with
  | x :: ((y :: _) as t) => sc y <= sc x /\ sorted_by sc t
  | _ => True
  end.

(** The elements of [l] whose score is [n], in the order of [l]. *)
Definition with_score {A} (sc : A -> nat) (n : nat) (l : list A) : list A :=
  List.filter (fun y => Nat.eqb (sc y) n) l.

Lemma sorted_by_cons {A} (sc : A -> nat) (y : A) (l : list A) :
  Forall (fun z => sc z <= sc y) l -> sorted_by sc l -> sorted_by sc (y :: l).
Proof. destruct l as [|z l]; simpl; [tauto|]. intros Hf Hs. inversion Hf; auto. Qed.

Lemma sorted_by_tail {A} (sc : A -> nat) (y : A) (l : list A) :
  sorted_by sc (y :: l) -> sorted_by sc l.
Proof. destruct l; simpl; tauto. Qed.

Lemma sorted_by_head {A} (sc : A -> nat) (y : A) (l : list A) :
  sorted_by sc (y :: l) -> Forall (fun z => sc z <= sc y) l.
Proof.
  revert y. induction l as [|z l IH]; intros y H; [constructor|].
  destruct H as [Hzy Hs]. constructor; [exact Hzy|].
  eapply List.Forall_impl; [|exact (IH z Hs)]. simpl. intros a Ha. lia.
Qed.

Lemma insert_desc_perm {A} (sc : A -> nat) (x : A) (l : list A) :
  Permutation (insert_desc sc x l) (x :: l).
Proof.
  induction l as [|y l IH]; simpl; [reflexivity|].
  destruct (Nat.ltb (sc y) (sc x)); [reflexivity|].
  rewrite IH. apply perm_swap.
Qed.

Lemma insert_desc_sorted {A} (sc : A -> nat) (x : A) (l : list A) :
  sorted_by sc l -> sorted_by sc (insert_desc sc x l).
Proof.
  induction l as [|y l IH]; intros Hs; simpl; [exact I|].
  destruct (Nat.ltb (sc y) (sc x)) eqn:Hlt.
  - apply Nat.ltb_lt in Hlt. simpl. split; [lia|exact Hs].
  - apply Nat.ltb_ge in Hlt. apply sorted_by_cons.
    + apply List.Forall_forall. intros z Hz.
      apply (Permutation_in _ (insert_desc_perm sc x l)) in Hz.
      destruct Hz as [<-|Hz]; [lia|].
      exact (proj1 (List.Forall_forall _ _) (sorted_by_head sc y l Hs) z Hz).
    + apply IH. exact (sorted_by_tail sc y l Hs).
Qed.

Lemma filter_below {A} (sc : A -> nat) (n : nat) (l : list A) :
  Forall (fun z => sc z < n) l -> List.filter (fun z => Nat.eqb (sc z) n) l = [].
Proof.
  induction 1 as [|z l Hz _ IH]; simpl; [reflexivity|].
  destruct (Nat.eqb (sc z) n) eqn:He; [apply Nat.eqb_eq in He; lia|exact IH].
Qed.

Lemma insert_desc_with_score {A} (sc : A -> nat) (n : nat) (x : A) (l : list A) :
  sorted_by sc l ->
  with_score sc n (insert_desc sc x l) =
  (with_score sc n l ++ (if Nat.eqb (sc x) n then [x] else []))%list.
Proof.
  unfold with_score.
  induction l as [|y l IH]; intros Hs; simpl; [destruct (Nat.eqb (sc x) n); reflexivity|].
  destruct (Nat.ltb (sc y) (sc x)) eqn:Hlt.
  - apply Nat.ltb_lt in Hlt.
    destruct (Nat.eqb (sc x) n) eqn:Hx; simpl; rewrite Hx.
    + apply Nat.eqb_eq in Hx.
      assert (Hnone : List.filter (fun z => Nat.eqb (sc z) n) (y :: l) = []).
      { apply filter_below. constructor; [lia|].
        eapply List.Forall_impl; [|exact (sorted_by_head sc y l Hs)].
        simpl. intros a Ha. lia. }
      simpl in Hnone. rewrite Hnone. reflexivity.
    + rewrite app_nil_r. reflexivity.
  - simpl. rewrite IH by exact (sorted_by_tail sc y l Hs).
    destruct (Nat.eqb (sc y) n); reflexivity.
Qed.

Lemma sort_desc_facts {A} (sc : A -> nat) (l acc : list A) :
  sorted_by sc acc ->
  let r := fold_left (fun acc x => insert_desc sc x acc) l acc in
  sorted_by sc r /\ Permutation r (l ++ acc) /\
  forall n, with_score sc n r = (with_score sc n acc ++ with_score sc n l)%list.
Proof.
  revert acc. induction l as [|x l IH]; intros acc Hs; simpl.
  - repeat split; [exact Hs|reflexivity|].
    intros n. unfold with_score. simpl. rewrite app_nil_r. reflexivity.
  - destruct (IH (insert_desc sc x acc) (insert_desc_sorted sc x acc Hs))
      as (Hs' & Hp & Hw).
    repeat split; [exact Hs'| |].
    + rewrite Hp, insert_desc_perm. symmetry. apply Permutation_middle.
    + intros n. rewrite Hw, insert_desc_with_score by exact Hs.
      unfold with_score. simpl. rewrite <- app_assoc.
      destruct (Nat.eqb (sc x) n); reflexivity.
Qed.

Lemma firstn_sorted_by {A} (sc : A -> nat) (n : nat) (l : list A) :
  sorted_by sc l -> sorted_by sc (firstn n l).
Proof.
  revert n. induction l as [|x t IH]; intros n H; destruct n; simpl; try exact I.
  destruct t as [|y t']; destruct n; simpl; try exact I.
  destruct H as [Hyx Hs]. split; [exact Hyx|].
  exact (IH (S n) Hs).
Qed.

Lemma in_firstn {A} (n : nat) (x : A) (l : list A) : In x (firstn n l) -> In x l.
Proof.
  intros H. rewrite <- (firstn_skipn n l). apply in_or_app. left. exact H.
Qed.

Lemma insert_desc_pair {A} (g : A -> nat) (x : A) (l : list A) :
  insert_desc snd (x, g x) (map (fun y => (y, g y)) l) =
  map (fun y => (y, g y)) (insert_desc g x l).
Proof.
  induction l as [|y l IH]; simpl; [reflexivity|].
  destruct (Nat.ltb (g y) (g x)); simpl; [reflexivity|]. rewrite IH. reflexivity.
Qed.

Lemma sort_desc_pair {A} (g : A -> nat) (l : list A) :
  sort_desc snd (map (fun y => (y, g y)) l) = map (fun y => (y, g y)) (sort_desc g l).
Proof.
  unfold sort_desc.
  change (@nil (A * nat)) with (map (fun y => (y, g y)) (@nil A)).
  generalize (@nil A) as acc.
  induction l as [|x l IH]; intros acc; simpl; [reflexivity|].
  rewrite insert_desc_pair. apply IH.
Qed.

Lemma filter_pair {A} (g : A -> nat) (l : list A) :
  List.filter (fun p => Nat.ltb 0 (snd p)) (map (fun y => (y, g y)) l) =
  map (fun y => (y, g y)) (List.filter (fun y => Nat.ltb 0 (g y)) l).
Proof.
  induction l as [|x l IH]; simpl; [reflexivity|].
  destruct (Nat.ltb 0 (g x)); simpl; rewrite IH; reflexivity.
Qed.

(** The score of a chunk, [0] when scoring throws; a search that returns
    has scored every chunk of the document. *)
Definition score_of (re : regex_engine) (q : string) (ch : DocumentChunk) : nat :=
  match score re q (content ch) with Some n => n | None => 0 end.

Lemma score_chunks_some (re : regex_engine) (q : string) (chs : list DocumentChunk)
    (scored : list (DocumentChunk * nat)) :
  score_chunks re q chs = Some scored ->
  scored = map (fun ch => (ch, score_of re q ch)) chs /\
  Forall (fun ch => score re q (content ch) = Some (score_of re q ch)) chs.
Proof.
  revert scored. induction chs as [|ch rest IH]; intros scored H; simpl in H.
  - injection H as <-. split; [reflexivity | constructor].
  - destruct (score re q (content ch)) as [n|] eqn:Hs; [|discriminate].
    destruct (score_chunks re q rest) as [sc|] eqn:Hr; [|discriminate].
    injection H as <-. destruct (IH sc eq_refl) as [-> Hf].
    assert (Hn : score_of re q ch = n) by (unfold score_of; rewrite Hs; reflexivity).
    split.
    + simpl. rewrite Hn. reflexivity.
    + constructor; [rewrite Hn; exact Hs | exact Hf].
Qed.

(** A search that returns ranks the positively scored chunks with the
    stable sort and keeps the first [topK] of them. *)
Lemma searchDocument_eq (re : regex_engine) (doc : ParsedDocument) (q : string) (k : Z)
    (hits : list DocumentChunk) :
  searchDocument re doc q k = Some hits ->
  hits = js_slice_to (sort_desc (score_of re q)
           (List.filter (fun ch => Nat.ltb 0 (score_of re q ch)) (chunks doc))) k /\
  Forall (fun ch => score re q (content ch) = Some (score_of re q ch)) (chunks doc).
Proof.
  unfold searchDocument.
  destruct (score_chunks re q (chunks doc)) as [scored|] eqn:H; [|discriminate].
  intros Heq. injection Heq as <-.
  destruct (score_chunks_some _ _ _ _ H) as [-> Hf]. split; [|exact Hf].
  rewrite (filter_pair (score_of re q)), sort_desc_pair, js_slice_to_map, map_map, map_id.
  reflexivity.
Qed.

Lemma js_slice_to_firstn {A} (l : list A) (k : Z) :
  exists m, js_slice_to l k = firstn m l.
Proof. eexists. reflexivity. Qed.

Lemma js_slice_to_length {A} (l : list A) (k : Z) :
  (0 <= k)%Z -> length (js_slice_to l k) <= Z.to_nat k.
Proof.
  intros Hk. unfold js_slice_to.
  destruct (k <? 0)%Z eqn:Hlt; [apply Z.ltb_lt in Hlt; lia|].
  pose proof (firstn_le_length (Z.to_nat (Z.min k (Z.of_nat (length l)))) l). lia.
Qed.

Lemma js_slice_to_all {A} (l : list A) (k : Z) :
  (Z.of_nat (length l) <= k)%Z -> js_slice_to l k = l.
Proof.
  intros Hk. unfold js_slice_to.
  destruct (k <? 0)%Z eqn:Hlt; [apply Z.ltb_lt in Hlt; lia|].
  rewrite Z.min_r by exact Hk. rewrite Nat2Z.id. apply firstn_all.
Qed.

Lemma with_score_filter_prefix {A} (sc : A -> nat) (n : nat) (l : list A) :
  exists r, (with_score sc n (List.filter (fun y => Nat.ltb 0 (sc y)) l) ++ r)%list =
            with_score sc n l.
Proof.
  unfold with_score. destruct n as [|n].
  - exists (List.filter (fun y => Nat.eqb (sc y) 0) l).
    enough (H0 : List.filter (fun y => Nat.eqb (sc y) 0)
                   (List.filter (fun y => Nat.ltb 0 (sc y)) l) = []) by (rewrite H0; reflexivity).
    induction l as [|x l IH]; [reflexivity|]. simpl.
    destruct (sc x) eqn:Hx; simpl; rewrite ?Hx; simpl; exact IH.
  - exists []. rewrite app_nil_r.
    induction l as [|x l IH]; [reflexivity|]. simpl.
    destruct (Nat.ltb 0 (sc x)) eqn:Hp; simpl; rewrite ?IH; [reflexivity|].
    destruct (Nat.eqb (sc x) (S n)) eqn:He; [|reflexivity].
    apply Nat.eqb_eq in He. apply Nat.ltb_ge in Hp. lia.
Qed.

Lemma ranked_prefix {A} (sc : A -> nat) (n : nat) (k : Z) (l : list A) :
  exists rest,
    (with_score sc n (js_slice_to (sort_desc sc (List.filter (fun y => Nat.ltb 0 (sc y)) l)) k)
       ++ rest)%list = with_score sc n l.
Proof.
  set (F := List.filter (fun y => Nat.ltb 0 (sc y)) l).
  destruct (js_slice_to_firstn (sort_desc sc F) k) as [m Hm]. rewrite Hm.
  destruct (sort_desc_facts sc F [] I) as (_ & _ & Hw).
  destruct (with_score_filter_prefix sc n l) as [r Hr].
  exists (with_score sc n (skipn m (sort_desc sc F)) ++ r)%list.
  rewrite app_assoc. unfold with_score at 1 2. rewrite <- List.filter_app, firstn_skipn.
  fold (with_score sc n (sort_desc sc F)). unfold sort_desc. rewrite Hw.
  exact Hr.
Qed.

Definition mk_chunk (text : string) (i : nat) : DocumentChunk :=
  {| content := text; pageNumber := 1; chunkIndex := i |}.

(** A three-chunk document used by the instances below. *)
Definition doc_three_chunks : ParsedDocument :=
  {| filename := "notes.csv"; fullText := "Alpha beta. Beta beta gamma. Delta.";
     chunks := [mk_chunk "Alpha beta." 0; mk_chunk "Beta beta gamma." 1;
                mk_chunk "Delta." 2];
     pageCount := 1; parsedAt := 0; doc_type := csv |}.

Lemma ranked_in (re : regex_engine) (doc : ParsedDocument) (q : string) (k : Z)
    (ch : DocumentChunk) :
  In ch (js_slice_to (sort_desc (score_of re q)
           (List.filter (fun ch => Nat.ltb 0 (score_of re q ch)) (chunks doc))) k) ->
  In ch (chunks doc) /\ 0 < score_of re q ch.
Proof.
  intros Hin.
  destruct (js_slice_to_firstn
              (sort_desc (score_of re q)
                 (List.filter (fun ch => Nat.ltb 0 (score_of re q ch)) (chunks doc))) k)
    as [m Hm].
  rewrite Hm in Hin. apply in_firstn in Hin.
  destruct (sort_desc_facts (score_of re q)
              (List.filter (fun ch => Nat.ltb 0 (score_of re q ch)) (chunks doc)) [] I)
    as (_ & Hp & _).
  rewrite app_nil_r in Hp. apply (Permutation_in _ Hp) in Hin. apply filter_In in Hin.
  destruct Hin as [Hin Hpos]. apply Nat.ltb_lt in Hpos. auto.
Qed.

Lemma searchDocument_in (re : regex_engine) (doc : ParsedDocument) (q : string) (k : Z)
    (hits : list DocumentChunk) (ch : DocumentChunk) :
  searchDocument re doc q k = Some hits -> In ch hits ->
  In ch (chunks doc) /\ exists n, score re q (content ch) = Some n /\ 0 < n.
Proof.
  intros Hs Hin. destruct (searchDocument_eq re doc q k hits Hs) as [-> Hf].
  destruct (ranked_in re doc q k ch Hin) as [Hc Hpos].
  split; [exact Hc|]. exists (score_of re q ch).
  split; [exact (proj1 (List.Forall_forall _ _) Hf ch Hc) | exact Hpos].
Qed.

(** X1 *)
(** Every chunk returned by [searchDocument] is a chunk of the document
    with a positive score for the query, and for a non-negative [topK] at
    most [topK] chunks are returned. *)
Theorem searchDocument_hits_bounded (re : regex_engine) (doc : ParsedDocument) (q : string)
    (k : Z) (hits : list DocumentChunk) :
  (0 <= k)%Z -> searchDocument re doc q k = Some hits ->
  length hits <= Z.to_nat k /\
  forall ch, In ch hits ->
    In ch (chunks doc) /\ exists n, score re q (content ch) = Some n /\ 0 < n.
Proof.
  intros Hk Hs. split.
  - destruct (searchDocument_eq re doc q k hits Hs) as [-> _].
    apply js_slice_to_length. exact Hk.
  - intros ch Hin. exact (searchDocument_in re doc q k hits ch Hs Hin).
Qed.

Lemma searchDocument_hits_bounded_witness :
  ((0 <= 1)%Z /\
   searchDocument literal_regex doc_three_chunks "beta" 1 =
     Some [mk_chunk "Beta beta gamma." 1]) /\
  (length [mk_chunk "Beta beta gamma." 1] <= Z.to_nat 1 /\
   forall ch, In ch [mk_chunk "Beta beta gamma." 1] ->
     In ch (chunks doc_three_chunks) /\
     exists n, score literal_regex "beta" (content ch) = Some n /\ 0 < n).
Proof.
  assert (Hk : (0 <= 1)%Z) by lia.
  assert (Hs : searchDocument literal_regex doc_three_chunks "beta" 1 =
                 Some [mk_chunk "Beta beta gamma." 1]) by (vm_compute; reflexivity).
  split; [split; [exact Hk | exact Hs]|].
  exact (searchDocument_hits_bounded literal_regex doc_three_chunks "beta" 1 _ Hk Hs).
Defined.

(** X2 *)
(** The chunks returned by [searchDocument] are in descending order of
    their score for the query. *)
Theorem searchDocument_sorted (re : regex_engine) (doc : ParsedDocument) (q : string) (k : Z)
    (hits : list DocumentChunk) :
  searchDocument re doc q k = Some hits -> sorted_by (score_of re q) hits.
Proof.
  intros Hs. destruct (searchDocument_eq re doc q k hits Hs) as [-> _].
  destruct (js_slice_to_firstn
              (sort_desc (score_of re q)
                 (List.filter (fun ch => Nat.ltb 0 (score_of re q ch)) (chunks doc))) k)
    as [m Hm].
  rewrite Hm. apply firstn_sorted_by.
  exact (proj1 (sort_desc_facts _ _ [] I)).
Qed.

Lemma searchDocument_sorted_witness :
  searchDocument literal_regex doc_three_chunks "beta" 5 =
    Some [mk_chunk "Beta beta gamma." 1; mk_chunk "Alpha beta." 0] /\
  sorted_by (score_of literal_regex "beta")
    [mk_chunk "Beta beta gamma." 1; mk_chunk "Alpha beta." 0].
Proof.
  assert (Hs : searchDocument literal_regex doc_three_chunks "beta" 5 =
                 Some [mk_chunk "Beta beta gamma." 1; mk_chunk "Alpha beta." 0])
    by (vm_compute; reflexivity).
  split; [exact Hs | exact (searchDocument_sorted literal_regex doc_three_chunks "beta" 5 _ Hs)].
Defined.

(** X3 *)
(** When [topK] is at least the number of chunks with a positive score,
    a search that returns gives exactly those chunks (as a multiset): no
    matching chunk is lost and none is duplicated. *)
Theorem searchDocument_complete (re : regex_engine) (doc : ParsedDocument) (q : string)
    (k : Z) (hits : list DocumentChunk) :
  searchDocument re doc q k = Some hits ->
  (Z.of_nat (length (List.filter (fun ch => Nat.ltb 0 (score_of re q ch)) (chunks doc)))
     <= k)%Z ->
  Permutation hits (List.filter (fun ch => Nat.ltb 0 (score_of re q ch)) (chunks doc)).
Proof.
  intros Hs Hk. destruct (searchDocument_eq re doc q k hits Hs) as [-> _].
  destruct (sort_desc_facts (score_of re q)
              (List.filter (fun ch => Nat.ltb 0 (score_of re q ch)) (chunks doc)) [] I)
    as (_ & Hp & _).
  rewrite app_nil_r in Hp. unfold sort_desc.
  rewrite js_slice_to_all; [exact Hp|].
  rewrite (Permutation_length Hp). exact Hk.
Qed.

Lemma searchDocument_complete_witness :
  (searchDocument literal_regex doc_three_chunks "beta" 5 =
     Some [mk_chunk "Beta beta gamma." 1; mk_chunk "Alpha beta." 0] /\
   (Z.of_nat (length (List.filter (fun ch => Nat.ltb 0 (score_of literal_regex "beta" ch))
                        (chunks doc_three_chunks))) <= 5)%Z) /\
  Permutation [mk_chunk "Beta beta gamma." 1; mk_chunk "Alpha beta." 0]
    (List.filter (fun ch => Nat.ltb 0 (score_of literal_regex "beta" ch))
       (chunks doc_three_chunks)).
Proof.
  assert (Hs : searchDocument literal_regex doc_three_chunks "beta" 5 =
                 Some [mk_chunk "Beta beta gamma." 1; mk_chunk "Alpha beta." 0])
    by (vm_compute; reflexivity).
  assert (Hk : (Z.of_nat (length (List.filter (fun ch => Nat.ltb 0 (score_of literal_regex "beta" ch))
                      (chunks doc_three_chunks))) <= 5)%Z) by (vm_compute; discriminate).
  split; [split; [exact Hs | exact Hk]|].
  exact (searchDocument_complete literal_regex doc_three_chunks "beta" 5 _ Hs Hk).
Defined.

(** X4 *)
(** The ranking is stable: the returned chunks of any one score appear in
    the order of the document, and they are the first chunks of that score
    in the document. *)
Theorem searchDocument_ties_in_document_order (re : regex_engine) (doc : ParsedDocument)
    (q : string) (k : Z) (hits : list DocumentChunk) (n : nat) :
  searchDocument re doc q k = Some hits ->
  exists rest,
    (with_score (score_of re q) n hits ++ rest)%list = with_score (score_of re q) n (chunks doc).
Proof.
  intros Hs. destruct (searchDocument_eq re doc q k hits Hs) as [-> _].
  exact (ranked_prefix (score_of re q) n k (chunks doc)).
Qed.

(** Two chunks of equal score and one of a lower score. *)
Definition doc_ties : ParsedDocument :=
  {| filename := "ties.csv"; fullText := "Gamma one. Gamma two. Gamma gamma.";
     chunks := [mk_chunk "Gamma one." 0; mk_chunk "Gamma two." 1;
                mk_chunk "Gamma gamma." 2];
     pageCount := 1; parsedAt := 0; doc_type := csv |}.

Lemma searchDocument_ties_in_document_order_witness :
  searchDocument literal_regex doc_ties "gamma" 2 =
    Some [mk_chunk "Gamma gamma." 2; mk_chunk "Gamma one." 0] /\
  exists rest,
    (with_score (score_of literal_regex "gamma") 11
       [mk_chunk "Gamma gamma." 2; mk_chunk "Gamma one." 0] ++ rest)%list =
    with_score (score_of literal_regex "gamma") 11 (chunks doc_ties).
Proof.
  assert (Hs : searchDocument literal_regex doc_ties "gamma" 2 =
                 Some [mk_chunk "Gamma gamma." 2; mk_chunk "Gamma one." 0])
    by (vm_compute; reflexivity).
  split; [exact Hs|].
  exact (searchDocument_ties_in_document_order literal_regex doc_ties "gamma" 2 _ 11 Hs).
Defined.

(** ** Scoring *)

Lemma lowered_not_upper (c : ascii) :
  is_upper c = true -> is_upper (ascii_of_nat (nat_of_ascii c + 32)) = false.
Proof.
  unfold is_upper. intros H. apply andb_true_iff in H.
  destruct H as [H1 H2]. apply Nat.leb_le in H1, H2.
  rewrite nat_ascii_embedding by lia.
  destruct (Nat.leb (nat_of_ascii c + 32) 90) eqn:E; [apply Nat.leb_le in E; lia|].
  apply andb_false_r.
Qed.

Lemma toLowerCase_idem (s : string) : toLowerCase (toLowerCase s) = toLowerCase s.
Proof.
  induction s as [|c s IH]; simpl; [reflexivity|]. rewrite IH.
  destruct (is_upper c) eqn:Hu.
  - rewrite (lowered_not_upper c Hu). reflexivity.
  - rewrite Hu. reflexivity.
Qed.

Lemma sapp_cons (c : ascii) (x y : string) : String c x +:+ y = String c (x +:+ y).
Proof. reflexivity. Qed.

Lemma sapp_assoc (x y z : string) : (x +:+ y) +:+ z = x +:+ (y +:+ z).
Proof.
  induction x as [|c x IH]; [reflexivity|]. rewrite !sapp_cons, IH. reflexivity.
Qed.

Lemma sapp_nil_r (x : string) : x +:+ "" = x.
Proof. induction x as [|c x IH]; [reflexivity|]. rewrite sapp_cons, IH. reflexivity. Qed.

Lemma str_of_rev_cons (c : ascii) (acc : list ascii) :
  str_of_rev (c :: acc) = str_of_rev acc +:+ String c "".
Proof.
  unfold str_of_rev. simpl. generalize (rev acc) as l.
  induction l as [|d l IH]; simpl; [reflexivity | rewrite IH, sapp_cons; reflexivity].
Qed.

(** Substrings of substrings are substrings. *)
Lemma includes_trans (s m p : string) :
  includes s m = true -> includes m p = true -> includes s p = true.
Proof.
  rewrite !includes_spec. intros (a1 & b1 & ->) (a2 & b2 & ->).
  exists (a1 +:+ a2), (b2 +:+ b1). rewrite !sapp_assoc. reflexivity.
Qed.

Lemma includes_infix (a p b : string) : includes (a +:+ p +:+ b) p = true.
Proof. apply includes_spec. exists a, b. reflexivity. Qed.

(** Every piece of [s.split(/\s+/)] is a substring of [s]. *)
Lemma split_ws_aux_pieces (s : string) (acc : list ascii) (inws : bool) (p : string) :
  (inws = true -> acc = []) ->
  In p (split_ws_aux s acc inws) -> includes (str_of_rev acc +:+ s) p = true.
Proof.
  revert acc inws. induction s as [|c t IH]; intros acc inws Hinv Hin; simpl in Hin.
  - destruct Hin as [<-|[]]. rewrite sapp_nil_r.
    rewrite <- (sapp_nil_r (str_of_rev acc)) at 1.
    exact (includes_infix "" (str_of_rev acc) "").
  - destruct (is_ws c).
    + destruct inws.
      * rewrite (Hinv eq_refl) in Hin |- *.
        apply (includes_trans _ t); [|exact (IH [] true (fun _ => eq_refl) Hin)].
        replace (str_of_rev [] +:+ String c t) with (String c "" +:+ t +:+ "")
          by (rewrite sapp_nil_r; reflexivity).
        apply includes_infix.
      * destruct Hin as [<-|Hin].
        -- exact (includes_infix "" (str_of_rev acc) (String c t)).
        -- apply (includes_trans _ t); [|exact (IH [] true (fun _ => eq_refl) Hin)].
           replace (str_of_rev acc +:+ String c t)
             with ((str_of_rev acc +:+ String c "") +:+ t +:+ "")
             by (rewrite sapp_nil_r, sapp_assoc; reflexivity).
           apply includes_infix.
    + pose proof (IH (c :: acc) false (fun H => ltac:(discriminate H)) Hin) as H.
      rewrite str_of_rev_cons, sapp_assoc in H. exact H.
Qed.

Lemma queryTerms_substring (q term : string) :
  In term (queryTerms q) ->
  includes (toLowerCase q) term = true /\ 2 < String.length term.
Proof.
  unfold queryTerms. intros Hin. apply filter_In in Hin. destruct Hin as [Hin Hlen].
  apply Nat.ltb_lt in Hlen. split; [|exact Hlen].
  exact (split_ws_aux_pieces (toLowerCase q) [] false term (fun H => ltac:(discriminate H)) Hin).
Qed.

Lemma count_matches_aux_pos (fuel : nat) (term s : string) :
  String.length s < fuel -> term <> "" -> includes s term = true ->
  1 <= count_matches_aux fuel term s.
Proof.
  revert fuel. induction s as [|c t IH]; intros fuel Hf Hne Hinc.
  - destruct term; [congruence|]. simpl in Hinc. discriminate.
  - destruct fuel as [|f]; [simpl in Hf; lia|]. simpl.
    destruct (startsWith (String c t) term) eqn:Hs; [lia|].
    apply IH; [simpl in Hf; lia | exact Hne |].
    simpl in Hinc. rewrite Hs in Hinc. exact Hinc.
Qed.

Lemma fold_sum_lower {A} (f : A -> nat) (l : list A) (a : nat) :
  Forall (fun x => 1 <= f x) l ->
  a + length l <= fold_left (fun sc x => sc + f x) l a.
Proof.
  revert a. induction l as [|x l IH]; intros a Hl; simpl; [lia|].
  inversion Hl; subst. specialize (IH (a + f x) H2). lia.
Qed.

(** On plain terms a conforming engine counts the occurrences: the score
    loop adds up the counts of [count_matches]. *)
Lemma sum_matches_literal (re : regex_engine) (terms : list string) (s : string) (sc : nat) :
  regex_literal_ok re -> forallb plain_term terms = true ->
  sum_matches re terms (toLowerCase s) sc =
  Some (fold_left (fun a term => a + count_matches term (toLowerCase s)) terms sc).
Proof.
  intros Hre. revert sc. induction terms as [|term rest IH]; intros sc Hp; simpl; [reflexivity|].
  simpl in Hp. apply andb_true_iff in Hp. destruct Hp as [Ht Hr].
  rewrite (Hre term s Ht). apply IH. exact Hr.
Qed.

(** The score loop throws exactly when the engine throws on one of the terms. *)
Lemma sum_matches_none (re : regex_engine) (terms : list string) (s : string) (sc : nat) :
  sum_matches re terms s sc = None <-> exists term, In term terms /\ re term s = None.
Proof.
  revert sc. induction terms as [|term rest IH]; intros sc; simpl.
  - split; [discriminate | intros (t & [] & _)].
  - destruct (re term s) as [m|] eqn:Hm.
    + rewrite IH. split.
      * intros (t & Hin & Ht). exists t. auto.
      * intros (t & [<-|Hin] & Ht); [congruence|]. exists t. auto.
    + split; [intros _; exists term; auto | reflexivity].
Qed.

Lemma score_chunks_none (re : regex_engine) (q : string) (chs : list DocumentChunk) :
  score_chunks re q chs = None <-> exists ch, In ch chs /\ score re q (content ch) = None.
Proof.
  induction chs as [|ch rest IH]; simpl.
  - split; [discriminate | intros (c & [] & _)].
  - destruct (score re q (content ch)) as [n|] eqn:Hs.
    + destruct (score_chunks re q rest) as [sc|] eqn:Hr.
      * split; [discriminate|]. intros (c & [<-|Hin] & Hc); [congruence|].
        assert (Hn : Some sc = None) by (apply IH; exists c; auto). discriminate.
      * split; [|reflexivity]. intros _. destruct (proj1 IH eq_refl) as (c & Hin & Hc).
        exists c. auto.
    + split; [intros _; exists ch; auto | reflexivity].
Qed.

Lemma score_none (re : regex_engine) (q text : string) :
  score re q text = None <->
  exists term, In term (queryTerms q) /\ re term (toLowerCase text) = None.
Proof.
  unfold score. rewrite <- (sum_matches_none re (queryTerms q) (toLowerCase text) 0).
  destruct (sum_matches re (queryTerms q) (toLowerCase text) 0); split; congruence.
Qed.

(** X5 *)
(** Scoring is case-insensitive in the query and in the chunk text:
    lower-casing either of them leaves the result of scoring unchanged,
    whatever the regular expression engine. *)
Theorem score_case_insensitive (re : regex_engine) (q text : string) :
  score re (toLowerCase q) (toLowerCase text) = score re q text.
Proof. unfold score, queryTerms. rewrite !toLowerCase_idem. reflexivity. Qed.

(** X6 *)
(** For a query whose terms are plain words (no regular expression syntax),
    a chunk whose lower-cased text contains the whole lower-cased query
    scores at least 10 (the phrase bonus) plus one for each query term:
    every term is a piece of the query and so occurs in the chunk. *)
Theorem score_phrase_lower_bound (re : regex_engine) (q text : string) :
  regex_literal_ok re -> forallb plain_term (queryTerms q) = true ->
  includes (toLowerCase text) (toLowerCase q) = true ->
  exists n, score re q text = Some n /\ 10 + length (queryTerms q) <= n.
Proof.
  intros Hre Hp Hinc. unfold score.
  rewrite (sum_matches_literal re (queryTerms q) text 0 Hre Hp), Hinc.
  eexists. split; [reflexivity|].
  assert (Hall : Forall (fun term => 1 <= count_matches term (toLowerCase text))
                        (queryTerms q)).
  { apply List.Forall_forall. intros term Hin.
    destruct (queryTerms_substring q term Hin) as [Hsub Hlen].
    unfold count_matches. apply count_matches_aux_pos; [lia| |].
    - intros ->. simpl in Hlen. lia.
    - exact (includes_trans _ _ _ Hinc Hsub). }
  pose proof (fold_sum_lower (fun term => count_matches term (toLowerCase text))
                (queryTerms q) 0 Hall). lia.
Qed.

Lemma score_phrase_lower_bound_witness :
  (regex_literal_ok literal_regex /\ forallb plain_term (queryTerms "BETA gamma") = true /\
   includes (toLowerCase "Beta beta gamma.") (toLowerCase "BETA gamma") = true) /\
  exists n, score literal_regex "BETA gamma" "Beta beta gamma." = Some n /\
            10 + length (queryTerms "BETA gamma") <= n.
Proof.
  assert (Hp : forallb plain_term (queryTerms "BETA gamma") = true) by reflexivity.
  assert (H : includes (toLowerCase "Beta beta gamma.") (toLowerCase "BETA gamma") = true)
    by reflexivity.
  split; [split; [exact literal_regex_ok | split; [exact Hp | exact H]]|].
  exact (score_phrase_lower_bound literal_regex "BETA gamma" "Beta beta gamma."
           literal_regex_ok Hp H).
Defined.

(** X23 *)
(** [searchDocument] throws exactly when the regular expression built from
    one of the query terms throws on the lower-cased text of one of the
    chunks (in the source, [new RegExp(term, "gi")] raises a SyntaxError
    for a term such as "c++"). *)
Theorem searchDocument_throws_iff (re : regex_engine) (doc : ParsedDocument) (q : string)
    (k : Z) :
  searchDocument re doc q k = None <->
  exists ch term, In ch (chunks doc) /\ In term (queryTerms q) /\
                  re term (toLowerCase (content ch)) = None.
Proof.
  unfold searchDocument.
  transitivity (score_chunks re q (chunks doc) = None).
  { destruct (score_chunks re q (chunks doc)); split; congruence. }
  rewrite score_chunks_none. split.
  - intros (ch & Hin & Hs). apply score_none in Hs. destruct Hs as (term & Ht & Hn).
    exists ch, term. auto.
  - intros (ch & term & Hin & Ht & Hn). exists ch. split; [exact Hin|].
    apply score_none. exists term. auto.
Qed.

(** X25 *)
(** For a query of plain words and an engine that treats plain words
    literally, [searchDocument] never throws, and every chunk scores the sum
    of the occurrence counts of the query terms in its lower-cased text,
    plus 10 when that text contains the whole lower-cased query. *)
Theorem searchDocument_plain_query_scores (re : regex_engine) (doc : ParsedDocument)
    (q : string) (k : Z) :
  regex_literal_ok re -> forallb plain_term (queryTerms q) = true ->
  (exists hits, searchDocument re doc q k = Some hits) /\
  forall ch, In ch (chunks doc) ->
    score re q (content ch) =
    Some (fold_left (fun sc term => sc + count_matches term (toLowerCase (content ch)))
            (queryTerms q) 0 +
          (if includes (toLowerCase (content ch)) (toLowerCase q) then 10 else 0)).
Proof.
  intros Hre Hp.
  assert (Hsc : forall text, score re q text =
    Some (fold_left (fun sc term => sc + count_matches term (toLowerCase text))
            (queryTerms q) 0 +
          (if includes (toLowerCase text) (toLowerCase q) then 10 else 0))).
  { intros text. unfold score. rewrite (sum_matches_literal re (queryTerms q) text 0 Hre Hp).
    destruct (includes (toLowerCase text) (toLowerCase q)); f_equal; lia. }
  split; [|intros ch _; apply Hsc].
  destruct (searchDocument re doc q k) as [hits|] eqn:Hs; [exists hits; reflexivity|].
  apply searchDocument_throws_iff in Hs. destruct Hs as (ch & term & _ & Ht & Hn).
  assert (Hsn : score re q (content ch) = None) by (apply score_none; exists term; auto).
  rewrite Hsc in Hsn. discriminate.
Qed.

Lemma searchDocument_plain_query_scores_witness :
  (regex_literal_ok literal_regex /\ forallb plain_term (queryTerms "beta gamma") = true) /\
  ((exists hits, searchDocument literal_regex doc_three_chunks "beta gamma" 3 = Some hits) /\
   forall ch, In ch (chunks doc_three_chunks) ->
    score literal_regex "beta gamma" (content ch) =
    Some (fold_left (fun sc term => sc + count_matches term (toLowerCase (content ch)))
            (queryTerms "beta gamma") 0 +
          (if includes (toLowerCase (content ch)) (toLowerCase "beta gamma") then 10 else 0))).
Proof.
  assert (Hp : forallb plain_term (queryTerms "beta gamma") = true) by reflexivity.
  split; [split; [exact literal_regex_ok | exact Hp]|].
  exact (searchDocument_plain_query_scores literal_regex doc_three_chunks "beta gamma" 3
           literal_regex_ok Hp).
Defined.

(** ** Chunking *)

Definition nonws_in (l : list ascii) : bool := existsb (fun c => negb (is_ws c)) l.

Lemma has_nonws_append_l (x y : string) :
  has_nonws x = true -> has_nonws (x +:+ y) = true.
Proof.
  unfold has_nonws. rewrite list_ascii_of_string_append, existsb_app.
  intros ->. reflexivity.
Qed.

Lemma has_nonws_of_list (l : list ascii) :
  has_nonws (string_of_list_ascii l) = nonws_in l.
Proof. unfold has_nonws. rewrite list_ascii_of_string_of_list_ascii. reflexivity. Qed.

(** [trim s] is empty exactly when [s] is all whitespace. *)
Lemma trim_empty_iff (s : string) : String.eqb (trim s) "" = negb (has_nonws s).
Proof.
  destruct (has_nonws s) eqn:H; simpl.
  - apply String.eqb_neq. intros He.
    pose proof (trim_edge_clean s H) as Hc. rewrite He in Hc. exact Hc.
  - apply String.eqb_eq. unfold trim. unfold has_nonws in H.
    rewrite (drop_ws_all_ws _ H). reflexivity.
Qed.

(** The sentence pieces hold every non-whitespace character of the text. *)
Lemma split_sentences_aux_nonws (s : string) (acc : list ascii) (insep : bool) :
  (insep = true -> acc = []) ->
  existsb has_nonws (split_sentences_aux s acc insep) =
  nonws_in (rev acc ++ list_ascii_of_string s).
Proof.
  revert acc insep. induction s as [|c t IH]; intros acc insep Hinv; simpl.
  - rewrite app_nil_r, orb_false_r. apply has_nonws_of_list.
  - unfold nonws_in in *. destruct insep.
    + rewrite (Hinv eq_refl). simpl.
      destruct (is_ws c) eqn:Hc.
      * rewrite (IH [] true (fun _ => eq_refl)). reflexivity.
      * rewrite (IH [c] false (fun H => ltac:(discriminate H))). simpl. rewrite Hc. reflexivity.
    + destruct (is_ws c && match acc with p :: _ => is_punct p | [] => false end) eqn:Hb.
      * apply andb_true_iff in Hb. destruct Hb as [Hc _]. simpl.
        rewrite (IH [] true (fun _ => eq_refl)), has_nonws_of_list. unfold nonws_in.
        simpl. rewrite existsb_app. simpl. rewrite Hc. reflexivity.
      * rewrite (IH (c :: acc) false (fun H => ltac:(discriminate H))). simpl.
        rewrite <- app_assoc. reflexivity.
Qed.

(** The chunk loop keeps a pushed chunk, and a non-blank sentence ends up
    in a pushed chunk or in the current chunk. *)
Lemma chunk_loop_nonempty (sz ov : Z) (ss chunks : list string) (cur : string) :
  chunks <> [] \/ has_nonws cur = true \/ existsb has_nonws ss = true ->
  let r := chunk_loop sz ov ss chunks cur in
  fst r <> [] \/ has_nonws (snd r) = true.
Proof.
  revert chunks cur. induction ss as [|s rest IH]; intros chunks cur H; simpl.
  - destruct H as [H|[H|H]]; [left|right|discriminate]; exact H.
  - destruct ((sz <? slen cur + slen s)%Z && (0 <? slen cur)%Z).
    + apply IH. left. destruct chunks; discriminate.
    + apply IH. destruct H as [H|[H|H]]; [left; exact H| |].
      * right; left. apply has_nonws_append_l. exact H.
      * apply orb_true_iff in H. destruct H as [H|H]; [|right; right; exact H].
        right; left. do 2 apply has_nonws_append_r. exact H.
Qed.

(** A blank text is one sentence: no separator follows a terminator. *)
Lemma split_sentences_aux_blank (s : string) (acc : list ascii) :
  nonws_in acc = false -> has_nonws s = false ->
  split_sentences_aux s acc false = [string_of_list_ascii (rev acc ++ list_ascii_of_string s)].
Proof.
  revert acc. induction s as [|c t IH]; intros acc Hacc Hs; simpl.
  - rewrite app_nil_r. reflexivity.
  - unfold has_nonws in Hs. simpl in Hs. apply orb_false_iff in Hs.
    destruct Hs as [Hc Ht]. apply negb_false_iff in Hc. rewrite Hc. simpl.
    assert (Hp : match acc with p :: _ => is_punct p | [] => false end = false).
    { destruct acc as [|p acc]; [reflexivity|].
      simpl in Hacc. apply orb_false_iff in Hacc. destruct Hacc as [Hp _].
      destruct (is_punct p) eqn:E; [|reflexivity].
      rewrite (punct_not_ws p E) in Hp. discriminate. }
    rewrite Hp. rewrite IH; [simpl; rewrite <- app_assoc; reflexivity| |exact Ht].
    unfold nonws_in in *. simpl. rewrite Hc. exact Hacc.
Qed.

(** X7 *)
(** [chunkText] returns no chunk exactly when the text is empty or all
    whitespace, whatever the chunk size and the overlap. *)
Theorem chunkText_empty_iff_blank (text : string) (chunkSize overlap : Z) :
  chunkText text chunkSize overlap = [] <-> has_nonws text = false.
Proof.
  unfold chunkText, split_sentences.
  destruct (has_nonws text) eqn:H.
  - assert (Hs : existsb has_nonws (split_sentences_aux text [] false) = true).
    { rewrite (split_sentences_aux_nonws text [] false (fun H => ltac:(discriminate H))).
      exact H. }
    pose proof (chunk_loop_nonempty chunkSize overlap (split_sentences_aux text [] false) []
                  "" (or_intror (or_intror Hs))) as Hn.
    destruct (chunk_loop chunkSize overlap (split_sentences_aux text [] false) [] "")
      as [chunks cur]. simpl in Hn.
    rewrite trim_empty_iff. split; [|discriminate]. intros He. exfalso.
    destruct (has_nonws cur) eqn:Hc; simpl in He.
    + destruct chunks; discriminate.
    + destruct Hn as [Hn|Hn]; [exact (Hn He)|discriminate].
  - rewrite (split_sentences_aux_blank text [] eq_refl H). simpl.
    rewrite string_of_list_ascii_of_string, andb_false_r.
    change ("" +:+ "" +:+ text) with text.
    rewrite trim_empty_iff, H. simpl. tauto.
Qed.

(** ** [parseCSVLine] *)

(** Whether a line holds a double quote. *)
Definition has_quote (line : string) : bool :=
  existsb (fun c => Ascii.eqb c dq) (list_ascii_of_string line).

(** The field encoding of RFC 4180: the value between double quotes, each
    double quote of the value doubled. *)
Fixpoint csv_escape (v : string) : string :=
  match v with
  | EmptyString => EmptyString
  | String c t => if Ascii.eqb c dq then String dq (String dq (csv_escape t))
                  else String c (csv_escape t)
  end.

Definition csv_quote (v : string) : string := String dq (csv_escape v +:+ String dq "").

Lemma parseCSVLine_aux_unquoted (line : string) (cur : list ascii) (vals : list string) :
  has_quote line = false ->
  parseCSVLine_aux line cur false vals =
  (vals ++ map trim (split_char_aux ","%char line cur))%list.
Proof.
  revert cur vals. induction line as [|c t IH]; intros cur vals H; simpl; [reflexivity|].
  unfold has_quote in H. simpl in H. apply orb_false_iff in H. destruct H as [Hc Ht].
  rewrite Hc. simpl. rewrite andb_true_r.
  destruct (Ascii.eqb c ","%char); simpl.
  - rewrite IH by exact Ht. rewrite <- app_assoc. reflexivity.
  - apply IH. exact Ht.
Qed.

(** X8 *)
(** A line without double quotes is split at every comma and each piece
    is trimmed: [parseCSVLine] agrees with [line.split(",").map(trim)]. *)
Theorem parseCSVLine_unquoted (line : string) :
  has_quote line = false ->
  parseCSVLine line = map trim (split_char ","%char line).
Proof. intros H. apply parseCSVLine_aux_unquoted. exact H. Qed.

Lemma parseCSVLine_unquoted_witness :
  has_quote " a, b ,,c" = false /\
  parseCSVLine " a, b ,,c" = map trim (split_char ","%char " a, b ,,c").
Proof.
  assert (H : has_quote " a, b ,,c" = false) by reflexivity.
  split; [exact H | exact (parseCSVLine_unquoted " a, b ,,c" H)].
Defined.

(** Inside quotes, the escaped value and its closing quote are read back
    as the value. *)
Lemma parseCSVLine_aux_escaped (v rest : string) (cur : list ascii) (vals : list string) :
  startsWith rest (String dq "") = false ->
  parseCSVLine_aux (csv_escape v +:+ String dq rest) cur true vals =
  parseCSVLine_aux rest (rev (list_ascii_of_string v) ++ cur) false vals.
Proof.
  intros Hr. revert cur. induction v as [|c v IH]; intros cur.
  - change (csv_escape "" +:+ String dq rest) with (String dq rest).
    cbn [parseCSVLine_aux]. rewrite Ascii.eqb_refl.
    destruct rest as [|d rest']; [reflexivity|].
    cbn [startsWith] in Hr. rewrite andb_true_r, Ascii.eqb_sym in Hr.
    cbn [andb negb]. rewrite Hr. reflexivity.
  - cbn [csv_escape]. destruct (Ascii.eqb c dq) eqn:Hc.
    + apply Ascii.eqb_eq in Hc. subst c. rewrite !sapp_cons.
      cbn [parseCSVLine_aux]. rewrite Ascii.eqb_refl. cbn [andb].
      rewrite IH. cbn [list_ascii_of_string rev]. rewrite <- app_assoc. reflexivity.
    + rewrite sapp_cons. cbn [parseCSVLine_aux]. rewrite Hc.
      cbn [andb negb]. rewrite andb_false_r.
      rewrite IH. cbn [list_ascii_of_string rev]. rewrite <- app_assoc. reflexivity.
Qed.

Lemma parseCSVLine_aux_quoted (v rest : string) (vals : list string) :
  startsWith rest (String dq "") = false ->
  parseCSVLine_aux (csv_quote v +:+ rest) [] false vals =
  parseCSVLine_aux rest (rev (list_ascii_of_string v)) false vals.
Proof.
  intros Hr. unfold csv_quote. rewrite sapp_cons, sapp_assoc, sapp_cons.
  rewrite <- (app_nil_r (rev (list_ascii_of_string v))).
  rewrite <- (parseCSVLine_aux_escaped v rest [] vals Hr).
  cbn [parseCSVLine_aux]. rewrite Ascii.eqb_refl.
  change ("" +:+ rest) with rest.
  destruct (csv_escape v +:+ String dq rest) as [|d t] eqn:E.
  - destruct (csv_escape v); discriminate.
  - reflexivity.
Qed.

Lemma str_of_rev_rev (v : string) : str_of_rev (rev (list_ascii_of_string v)) = v.
Proof. unfold str_of_rev. rewrite rev_involutive. apply string_of_list_ascii_of_string. Qed.

Lemma parseCSVLine_aux_join (vs : list string) (v : string) (vals : list string) :
  parseCSVLine_aux (join "," (map csv_quote (v :: vs))) [] false vals =
  (vals ++ map trim (v :: vs))%list.
Proof.
  revert v vals. induction vs as [|w vs IH]; intros v vals.
  - simpl join. rewrite <- (sapp_nil_r (csv_quote v)).
    rewrite parseCSVLine_aux_quoted by reflexivity. simpl.
    rewrite str_of_rev_rev. reflexivity.
  - change (join "," (map csv_quote (v :: w :: vs)))
      with (csv_quote v +:+ "," +:+ join "," (map csv_quote (w :: vs))).
    rewrite parseCSVLine_aux_quoted by reflexivity.
    change ("," +:+ join "," (map csv_quote (w :: vs)))
      with (String ","%char (join "," (map csv_quote (w :: vs)))).
    cbn [parseCSVLine_aux]. change (Ascii.eqb ","%char dq) with false.
    rewrite Ascii.eqb_refl. cbn [andb negb].
    rewrite str_of_rev_rev, IH, <- app_assoc. reflexivity.
Qed.

(** X9 *)
(** Quoting round trip: fields written in the RFC 4180 form (quoted,
    inner quotes doubled) and joined by commas are read back by
    [parseCSVLine] as the trimmed fields, commas and quotes inside the
    fields included. *)
Theorem parseCSVLine_quoted_roundtrip (vs : list string) :
  vs <> [] -> parseCSVLine (join "," (map csv_quote vs)) = map trim vs.
Proof.
  intros Hne. destruct vs as [|v vs]; [congruence|].
  exact (parseCSVLine_aux_join vs v []).
Qed.

(** Two fields, the first holding a comma and a quoted word. *)
Definition quoted_sample : list string :=
  ["Say " +:+ String dq ("hi" +:+ String dq ", then go"); " x "].

Lemma parseCSVLine_quoted_roundtrip_witness :
  quoted_sample <> [] /\
  parseCSVLine (join "," (map csv_quote quoted_sample)) = map trim quoted_sample.
Proof.
  assert (H : quoted_sample <> []) by discriminate.
  split; [exact H | exact (parseCSVLine_quoted_roundtrip quoted_sample H)].
Defined.

(** ** Line endings of tabular files *)

(** The file with every line feed written as a carriage return and a line
    feed (Windows line endings). *)
Fixpoint to_crlf (s : string) : string :=
  match s with
  | EmptyString => EmptyString
  | String c t => if Ascii.eqb c LF then String CR (String LF (to_crlf t))
                  else String c (to_crlf t)
  end.

Definition with_cr (x : string) : string := x +:+ String CR "".

Lemma trim_with_cr (x : string) : trim (with_cr x) = trim x.
Proof.
  unfold trim, with_cr. rewrite list_ascii_of_string_append. simpl.
  destruct (existsb (fun c => negb (is_ws c)) (list_ascii_of_string x)) eqn:H.
  - rewrite drop_ws_app_nonws by exact H. rewrite rev_app_distr. reflexivity.
  - rewrite drop_ws_app_ws by exact H. rewrite (drop_ws_all_ws _ H). reflexivity.
Qed.

Lemma parseCSVLine_aux_with_cr (n : nat) (x : string) (cur : list ascii) (q : bool)
    (vals : list string) :
  String.length x <= n ->
  parseCSVLine_aux (with_cr x) cur q vals = parseCSVLine_aux x cur q vals.
Proof.
  unfold with_cr. revert x cur q vals. induction n as [|n IH]; intros x cur q vals Hx.
  - destruct x; [|simpl in Hx; lia].
    change ("" +:+ String CR "") with (String CR "").
    cbn [parseCSVLine_aux]. change (Ascii.eqb CR dq) with false.
    change (Ascii.eqb CR ","%char) with false. cbn [andb].
    rewrite str_of_rev_cons. exact (f_equal (fun v => vals ++ [v])%list (trim_with_cr _)).
  - destruct x as [|c t].
    + apply IH. simpl. lia.
    + simpl in Hx. rewrite sapp_cons. cbn [parseCSVLine_aux].
      destruct (Ascii.eqb c dq).
      * destruct t as [|d t'].
        -- change ("" +:+ String CR "") with (String CR "").
           cbv iota. change (Ascii.eqb CR dq) with false. rewrite andb_false_r.
           apply (IH ""). simpl. lia.
        -- rewrite sapp_cons. destruct (q && Ascii.eqb d dq).
           ++ apply IH. simpl in Hx. lia.
           ++ rewrite <- sapp_cons. apply IH. lia.
      * destruct (Ascii.eqb c ","%char && negb q); apply IH; lia.
Qed.

Lemma split_lines_aux_crlf (s : string) (acc : list ascii) :
  Forall2 (fun a b => a = b \/ a = with_cr b)
    (split_lines_aux (to_crlf s) acc) (split_lines_aux s acc).
Proof.
  revert acc. induction s as [|c t IH]; intros acc; simpl.
  - constructor; [left; reflexivity | constructor].
  - destruct (Ascii.eqb c LF) eqn:Hc.
    + cbn [split_lines_aux]. change (Ascii.eqb CR LF) with false. rewrite Ascii.eqb_refl.
      cbn [split_lines_aux]. rewrite Ascii.eqb_refl. constructor; [|apply IH].
      destruct acc as [|r a]; [left; reflexivity|].
      destruct (Ascii.eqb r CR) eqn:Hr; [|left; reflexivity].
      apply Ascii.eqb_eq in Hr. subst r. right. unfold with_cr. apply str_of_rev_cons.
    + cbn [split_lines_aux]. rewrite Hc. apply IH.
Qed.

Lemma filter_Forall2 {A} (R : A -> A -> Prop) (f : A -> bool) (l1 l2 : list A) :
  (forall a b, R a b -> f a = f b) ->
  Forall2 R l1 l2 -> Forall2 R (List.filter f l1) (List.filter f l2).
Proof.
  intros Hf H. induction H as [|a b l1 l2 Hab _ IH]; simpl; [constructor|].
  rewrite (Hf a b Hab). destruct (f b); [constructor|]; assumption.
Qed.

Lemma imap_Forall2 {A B} (R : A -> A -> Prop) (f : nat -> A -> B) (l1 l2 : list A) :
  (forall i a b, R a b -> f i a = f i b) ->
  Forall2 R l1 l2 -> imap f l1 = imap f l2.
Proof.
  intros Hf H. revert f Hf. induction H as [|a b l1 l2 Hab _ IH]; intros f Hf; [reflexivity|].
  simpl. rewrite (Hf 0 a b Hab). f_equal. apply IH. intros i x y Hxy. apply Hf. exact Hxy.
Qed.

Lemma parseCSVLine_with_cr (x : string) : parseCSVLine (with_cr x) = parseCSVLine x.
Proof. apply (parseCSVLine_aux_with_cr (String.length x)). lia. Qed.

(** X10 *)
(** Windows line endings are read like Unix ones: writing every line feed
    of a tabular file as CR LF changes neither the normalised text nor the
    warnings of [parseCSV]. *)
Theorem normalizeCSV_crlf (content : string) :
  normalizeCSV (to_crlf content) = normalizeCSV content.
Proof.
  unfold normalizeCSV, split_lines.
  assert (Ht : forall a b, a = b \/ a = with_cr b ->
            negb (String.eqb (trim a) "") = negb (String.eqb (trim b) ""))
    by (intros a b [->| ->]; [reflexivity | rewrite trim_with_cr; reflexivity]).
  pose proof (filter_Forall2 _ _ _ _ Ht (split_lines_aux_crlf content [])) as H.
  destruct H as [|h1 h2 r1 r2 Hh Hr]; [reflexivity|].
  assert (Hp : forall a b, a = b \/ a = with_cr b -> parseCSVLine a = parseCSVLine b)
    by (intros a b [->| ->]; [reflexivity | apply parseCSVLine_with_cr]).
  rewrite (Hp h1 h2 Hh).
  rewrite (imap_Forall2 (fun a b => a = b \/ a = with_cr b) (format_row (parseCSVLine h2)) r1 r2);
    [reflexivity| |exact Hr].
  intros i a b Hab. unfold format_row. rewrite (Hp a b Hab). reflexivity.
Qed.

Lemma nonws_strip_cr (acc : list ascii) :
  nonws_in (rev (match acc with r :: a => if Ascii.eqb r CR then a else acc
                             | [] => [] end)) = nonws_in (rev acc).
Proof.
  destruct acc as [|r a]; [reflexivity|].
  destruct (Ascii.eqb r CR) eqn:Hr; [|reflexivity].
  apply Ascii.eqb_eq in Hr. subst r. unfold nonws_in. simpl.
  rewrite existsb_app. simpl. rewrite orb_false_r. reflexivity.
Qed.

(** The lines hold every non-whitespace character of the file. *)
Lemma split_lines_aux_nonws (s : string) (acc : list ascii) :
  existsb has_nonws (split_lines_aux s acc) =
  nonws_in (rev acc ++ list_ascii_of_string s).
Proof.
  revert acc. induction s as [|c t IH]; intros acc; cbn [split_lines_aux].
  - simpl. rewrite app_nil_r, orb_false_r. unfold str_of_rev. apply has_nonws_of_list.
  - destruct (Ascii.eqb c LF) eqn:Hc.
    + apply Ascii.eqb_eq in Hc. subst c. cbn [existsb].
      rewrite IH. unfold str_of_rev. rewrite has_nonws_of_list, nonws_strip_cr.
      unfold nonws_in. simpl. rewrite existsb_app. reflexivity.
    + rewrite IH. simpl. rewrite <- app_assoc. reflexivity.
Qed.

Lemma filter_nil_iff {A} (f : A -> bool) (l : list A) :
  List.filter f l = [] <-> existsb f l = false.
Proof.
  induction l as [|x l IH]; simpl; [tauto|].
  destruct (f x); simpl; [split; discriminate|exact IH].
Qed.

(** X11 *)
(** The tabular normaliser finds no header line (and [parseCSV] reports
    "CSV file is empty") exactly when the file is empty or all
    whitespace. *)
Theorem normalizeCSV_none_iff_blank (content : string) :
  normalizeCSV content = None <-> has_nonws content = false.
Proof.
  unfold normalizeCSV.
  rewrite (filter_ext _ has_nonws) by (intros l; rewrite trim_empty_iff, negb_involutive;
                                        reflexivity).
  pose proof (filter_nil_iff has_nonws (split_lines content)) as Hf.
  unfold split_lines in *. rewrite split_lines_aux_nonws in Hf. simpl in Hf.
  destruct (List.filter has_nonws (split_lines_aux content [])) as [|h r].
  - split; [intros _; apply Hf; reflexivity | reflexivity].
  - split; [discriminate|]. intros H. apply Hf in H. discriminate.
Qed.

(** ** Provenance of cached and returned documents *)

(** The page number the parsers give the chunk at index [i]. *)
Definition page_of (t : DocumentType) (i : nat) : nat :=
  match t with csv => 1 | pdf => i / 3 + 1 end.

(** The document text comes from the stored file of that type and name. *)
Definition stored_text (E : env) (t : DocumentType) (f : string) (d : ParsedDocument)
  : Prop :=
  match t with
  | csv => exists raw warns, read_file E csv f = Some raw /\
             normalizeCSV raw = Some (fullText d, warns) /\ pageCount d = 1
  | pdf => exists buf, read_file E pdf f = Some buf /\
             pdfParse E buf = Some (fullText d, pageCount d)
  end.

(** A document as the parsers build it for the file [f] of type [t]. *)
Definition doc_ok (E : env) (t : DocumentType) (f : string) (d : ParsedDocument) : Prop :=
  filename d = f /\ doc_type d = t /\ validateFilename f = Ok tt /\
  stored_text E t f d /\
  map content (chunks d) = chunkText_default (fullText d) /\
  (forall i ch, chunks d !! i = Some ch -> chunkIndex ch = i /\ pageNumber ch = page_of t i).

Definition cache_ok (E : env) (c : cache) : Prop :=
  forall t f d, c !! cacheKey t f = Some d -> doc_ok E t f d.

(** The invariant of the event loop: well-formed cache entries, suspended
    PDF calls on validated and stored files, storage accessed only for
    validated names, and successful results that are documents of the
    requested file. *)
Definition world_ok (E : env) (w : world) : Prop :=
  cache_ok E (w_cache w) /\
  (forall tk, In tk (w_pending w) ->
     validateFilename (task_file tk) = Ok tt /\
     read_file E pdf (task_file tk) = Some (task_buf tk)) /\
  (forall k, In k (w_touched w) -> exists t f, k = cacheKey t f /\ validateFilename f = Ok tt) /\
  (forall id t f d, In (id, cacheKey t f, Ok d) (w_done w) -> doc_ok E t f d).

Lemma valid_tt (f : string) (u : unit) : validateFilename f = Ok u -> validateFilename f = Ok tt.
Proof. destruct u. exact id. Qed.

Lemma cache_ok_insert (E : env) (c : cache) (t : DocumentType) (f : string) (d : ParsedDocument) :
  cache_ok E c -> doc_ok E t f d -> cache_ok E (<[cacheKey t f := d]> c).
Proof.
  intros Hc Hd t' f' d' Hl.
  destruct (String.eqb (cacheKey t' f') (cacheKey t f)) eqn:Hk.
  - apply String.eqb_eq in Hk. destruct (cacheKey_inj _ _ _ _ Hk) as [-> ->].
    assert (Hi : <[cacheKey t f := d]> c !! cacheKey t f = Some d) by apply lookup_insert_eq.
    rewrite Hi in Hl. injection Hl as <-. exact Hd.
  - apply String.eqb_neq in Hk.
    assert (Hi : <[cacheKey t f := d]> c !! cacheKey t' f' = c !! cacheKey t' f')
      by (apply lookup_insert_ne; congruence).
    rewrite Hi in Hl. exact (Hc _ _ _ Hl).
Qed.

Lemma imap_chunks (t : DocumentType) (g : nat -> string -> DocumentChunk) (l : list string) :
  (forall i x, content (g i x) = x /\ chunkIndex (g i x) = i /\ pageNumber (g i x) = page_of t i) ->
  map content (imap g l) = l /\
  (forall i ch, imap g l !! i = Some ch -> chunkIndex ch = i /\ pageNumber ch = page_of t i).
Proof.
  intros Hg. split.
  - assert (Hc : forall i x, content (g i x) = x) by (intros i x; apply Hg).
    clear Hg. revert g Hc. induction l as [|x l IH]; intros g Hc; [reflexivity|].
    rewrite imap_cons. simpl. rewrite Hc. f_equal.
    apply IH. intros i y. apply Hc.
  - intros i ch Hl. apply list_lookup_imap_Some in Hl. destruct Hl as (y & _ & ->).
    apply Hg.
Qed.

Lemma parseCSV_sound (E : env) (now : nat) (f : string) (c : cache) :
  cache_ok E c ->
  cache_ok E (snd (parseCSV E now f c)) /\
  (forall d, fst (parseCSV E now f c) = Ok d -> doc_ok E csv f d).
Proof.
  intros Hc. unfold parseCSV.
  destruct (validateFilename f) as [u|e] eqn:Hv; [|split; [exact Hc | discriminate]].
  apply valid_tt in Hv.
  destruct (c !! cacheKey csv f) as [d|] eqn:Hl.
  - split; [exact Hc|]. intros d' Hd. injection Hd as <-. exact (Hc _ _ _ Hl).
  - unfold csv_miss.
    destruct (read_file E csv f) as [raw|] eqn:Hr; [|split; [exact Hc | discriminate]].
    destruct (normalizeCSV raw) as [[text warns]|] eqn:Hn; [|split; [exact Hc | discriminate]].
    destruct (imap_chunks csv (fun index content =>
                {| content := content; pageNumber := 1; chunkIndex := index |})
                (chunkText_default text) (fun i x => conj eq_refl (conj eq_refl eq_refl)))
      as [Hm Hi].
    assert (Hd : doc_ok E csv f
              {| filename := f; fullText := text;
                 chunks := imap (fun index content =>
                   {| content := content; pageNumber := 1; chunkIndex := index |})
                   (chunkText_default text);
                 pageCount := 1; parsedAt := now; doc_type := csv |}).
    { split; [reflexivity|]. split; [reflexivity|]. split; [exact Hv|].
      split; [simpl; exists raw, warns; auto|]. split; [exact Hm | exact Hi]. }
    split; [exact (cache_ok_insert E c csv f _ Hc Hd)|].
    intros d' Hd'. injection Hd' as <-. exact Hd.
Qed.

Lemma pdf_finish_sound (E : env) (now : nat) (f buf : string) (c : cache) :
  validateFilename f = Ok tt -> read_file E pdf f = Some buf -> cache_ok E c ->
  cache_ok E (snd (pdf_finish E now f buf c)) /\
  (forall d, fst (pdf_finish E now f buf c) = Ok d -> doc_ok E pdf f d).
Proof.
  intros Hv Hr Hc. unfold pdf_finish.
  destruct (pdfParse E buf) as [[text np]|] eqn:Hp; [|split; [exact Hc | discriminate]].
  destruct (imap_chunks pdf (fun index content =>
              {| content := content; pageNumber := index / 3 + 1; chunkIndex := index |})
              (chunkText_default text) (fun i x => conj eq_refl (conj eq_refl eq_refl)))
    as [Hm Hi].
  assert (Hd : doc_ok E pdf f
            {| filename := f; fullText := text;
               chunks := imap (fun index content =>
                 {| content := content; pageNumber := index / 3 + 1; chunkIndex := index |})
                 (chunkText_default text);
               pageCount := np; parsedAt := now; doc_type := pdf |}).
  { split; [reflexivity|]. split; [reflexivity|]. split; [exact Hv|].
    split; [simpl; exists buf; auto|]. split; [exact Hm | exact Hi]. }
  split; [exact (cache_ok_insert E c pdf f _ Hc Hd)|].
  intros d' Hd'. injection Hd' as <-. exact Hd.
Qed.

Lemma pdf_begin_sound (E : env) (f : string) (c : cache) :
  cache_ok E c ->
  match pdf_begin E f c with
  | PdfDone r => forall d, r = Ok d -> doc_ok E pdf f d
  | PdfAwait buf => validateFilename f = Ok tt /\ read_file E pdf f = Some buf
  end.
Proof.
  intros Hc. unfold pdf_begin.
  destruct (validateFilename f) as [u|e] eqn:Hv; [|intros ? ?; discriminate].
  apply valid_tt in Hv.
  destruct (c !! cacheKey pdf f) as [d|] eqn:Hl.
  - intros d' Hd. injection Hd as <-. exact (Hc _ _ _ Hl).
  - unfold pdf_open. destruct (read_file E pdf f) eqn:Hr; [destruct u; auto | intros ? ?; discriminate].
Qed.

Lemma touches_storage_valid (t : DocumentType) (f : string) (c : cache) :
  touches_storage t f c = true -> validateFilename f = Ok tt.
Proof.
  unfold touches_storage. destruct (validateFilename f) as [[]|e]; [reflexivity|discriminate].
Qed.

Lemma done_app_ok (E : env) (l : list (nat * string * result ParsedDocument))
    (id : nat) (t : DocumentType) (f : string) (r : result ParsedDocument) :
  (forall id t f d, In (id, cacheKey t f, Ok d) l -> doc_ok E t f d) ->
  (forall d, r = Ok d -> doc_ok E t f d) ->
  forall id' t' f' d, In (id', cacheKey t' f', Ok d) (l ++ [(id, cacheKey t f, r)])%list ->
    doc_ok E t' f' d.
Proof.
  intros Hl Hr id' t' f' d Hin. apply in_app_or in Hin. destruct Hin as [Hin|[Heq|[]]].
  - exact (Hl _ _ _ _ Hin).
  - injection Heq as _ Hk Hd. destruct (cacheKey_inj _ _ _ _ Hk) as [-> ->].
    apply Hr. exact Hd.
Qed.

Lemma touched_app_ok (l : list string) (t : DocumentType) (f : string) (c : cache) :
  (forall k, In k l -> exists t f, k = cacheKey t f /\ validateFilename f = Ok tt) ->
  forall k, In k (l ++ (if touches_storage t f c then [cacheKey t f] else []))%list ->
    exists t f, k = cacheKey t f /\ validateFilename f = Ok tt.
Proof.
  intros Hl k Hin. apply in_app_or in Hin. destruct Hin as [Hin|Hin]; [exact (Hl k Hin)|].
  destruct (touches_storage t f c) eqn:Ht; [|destruct Hin].
  destruct Hin as [<-|[]]. exists t, f. split; [reflexivity|].
  exact (touches_storage_valid t f c Ht).
Qed.

Lemma world_step_ok (E : env) (ev : event) (w : world) :
  world_ok E w -> world_ok E (world_step E ev w).
Proof.
  intros (Hc & Hp & Ht & Hd). destruct ev as [t fname|id]; unfold world_step.
  - destruct t.
    + pose proof (parseCSV_sound E (w_clock w) fname (w_cache w) Hc) as [Hc' Hr].
      destruct (parseCSV E (w_clock w) fname (w_cache w)) as [r c'].
      simpl in Hc', Hr. split; [exact Hc'|]. split; [exact Hp|].
      split; [exact (touched_app_ok _ csv fname _ Ht)|].
      exact (done_app_ok E _ _ csv fname r Hd Hr).
    + pose proof (pdf_begin_sound E fname (w_cache w) Hc) as Hb.
      destruct (pdf_begin E fname (w_cache w)) as [r|buf].
      * split; [exact Hc|]. split; [exact Hp|].
        split; [exact (touched_app_ok _ pdf fname _ Ht)|].
        exact (done_app_ok E _ _ pdf fname r Hd Hb).
      * split; [exact Hc|]. split; [|split; [exact (touched_app_ok _ pdf fname _ Ht) | exact Hd]].
        simpl. intros tk Hin. apply in_app_or in Hin. destruct Hin as [Hin|[<-|[]]].
        -- exact (Hp tk Hin).
        -- exact Hb.
  - destruct (find_task id (w_pending w)) as [tk|] eqn:Hf.
    + apply find_some in Hf. destruct Hf as [Hin _].
      destruct (Hp tk Hin) as [Hv Hr].
      pose proof (pdf_finish_sound E (w_clock w) (task_file tk) (task_buf tk) (w_cache w)
                    Hv Hr Hc) as [Hc' Hres].
      destruct (pdf_finish E (w_clock w) (task_file tk) (task_buf tk) (w_cache w)) as [r c'].
      simpl in Hc', Hres. split; [exact Hc'|]. split.
      * simpl. intros tk' Hin'. apply filter_In in Hin'. exact (Hp tk' (proj1 Hin')).
      * split; [exact Ht|]. exact (done_app_ok E _ _ pdf (task_file tk) r Hd Hres).
    + split; [exact Hc|]. split; [exact Hp|]. split; [exact Ht | exact Hd].
Qed.

Lemma run_ok (E : env) (evs : list event) (w : world) :
  world_ok E w -> world_ok E (run E evs w).
Proof.
  unfold run. revert w. induction evs as [|ev evs IH]; intros w Hw; simpl; [exact Hw|].
  apply IH. apply world_step_ok. exact Hw.
Qed.

Lemma world0_ok (E : env) : world_ok E world0.
Proof.
  split; [intros t f d Hl; discriminate Hl|].
  split; [intros tk []|]. split; [intros k []|]. intros id t f d [].
Qed.

(** A storage with one tabular file and one PDF. *)
Definition env_mixed : env := {|
  csv_listing := Some ["a.csv"];
  pdf_listing := Some ["b.pdf"];
  read_file := fun t f =>
    match t with
    | csv => if String.eqb f "a.csv" then Some ("h" +:+ String LF "x") else None
    | pdf => if String.eqb f "b.pdf" then Some "%PDF" else None
    end;
  pdfParse := fun buf => if String.eqb buf "%PDF" then Some ("Hello.", 1) else None;
  regexMatch := literal_regex |}.

(** A CSV call, a PDF call and the resumption of the PDF call. *)
Definition events_mixed : list event := [Call csv "a.csv"; Call pdf "b.pdf"; Resume 1].

Definition doc_a : ParsedDocument :=
  {| filename := "a.csv"; fullText := "h: x"; chunks := [mk_chunk "h: x" 0];
     pageCount := 1; parsedAt := 0; doc_type := csv |}.

Definition doc_b : ParsedDocument :=
  {| filename := "b.pdf"; fullText := "Hello."; chunks := [mk_chunk "Hello." 0];
     pageCount := 1; parsedAt := 2; doc_type := pdf |}.

(** X12 *)
(** In every run of the event loop from the empty cache, whatever the
    interleaving of the calls, the cache entry for [type:filename] is a
    document named [filename] of that type, built from the stored file of
    that name: a validated name, the text extracted or normalised from
    that file, the chunks of [chunkText] on that text, numbered from 0,
    with the page numbers of the parser of that type. *)
Theorem run_cache_provenance (E : env) (evs : list event) (t : DocumentType) (f : string)
    (d : ParsedDocument) :
  w_cache (run E evs world0) !! cacheKey t f = Some d -> doc_ok E t f d.
Proof.
  intros Hl. destruct (run_ok E evs world0 (world0_ok E)) as (Hc & _). exact (Hc t f d Hl).
Qed.

Lemma run_cache_provenance_witness :
  w_cache (run env_mixed events_mixed world0) !! cacheKey csv "a.csv" = Some doc_a /\
  doc_ok env_mixed csv "a.csv" doc_a.
Proof.
  assert (H : w_cache (run env_mixed events_mixed world0) !! cacheKey csv "a.csv" = Some doc_a)
    by (vm_compute; reflexivity).
  split; [exact H | exact (run_cache_provenance env_mixed events_mixed csv "a.csv" doc_a H)].
Defined.

(** X14 *)
(** Every successful result of a call, in every run from the empty cache,
    is a document of the requested type and filename built from the
    stored file of that name, also when it was served from the cache or
    when other calls ran while a PDF was being extracted. *)
Theorem run_results_provenance (E : env) (evs : list event) (id : nat) (t : DocumentType)
    (f : string) (d : ParsedDocument) :
  In (id, cacheKey t f, Ok d) (w_done (run E evs world0)) -> doc_ok E t f d.
Proof.
  intros Hin. destruct (run_ok E evs world0 (world0_ok E)) as (_ & _ & _ & Hd).
  exact (Hd id t f d Hin).
Qed.

Lemma run_results_provenance_witness :
  In (1, cacheKey pdf "b.pdf", Ok doc_b) (w_done (run env_mixed events_mixed world0)) /\
  doc_ok env_mixed pdf "b.pdf" doc_b.
Proof.
  assert (H : In (1, cacheKey pdf "b.pdf", Ok doc_b) (w_done (run env_mixed events_mixed world0)))
    by (vm_compute; right; left; reflexivity).
  split; [exact H | exact (run_results_provenance env_mixed events_mixed 1 pdf "b.pdf" doc_b H)].
Defined.

(** ** The [search_documentation] tool *)

Lemma search_loop_hits (E : env) (now : nat) (q : string) (k : Z)
    (docs : list (string * DocumentType)) (c : cache) (f : string) (t : DocumentType)
    (ch : DocumentChunk) :
  In (f, t, ch) (fst (search_loop E now q k docs c)) ->
  In (f, t) docs /\ exists n, score (regexMatch E) q (content ch) = Some n /\ 0 < n.
Proof.
  revert c. induction docs as [|[f0 t0] rest IH]; intros c Hin; simpl in Hin; [destruct Hin|].
  destruct (parseDocument E now f0 t0 c) as [[d|e] c1].
  - destruct (searchDocument (regexMatch E) d q k) as [found|] eqn:Hd.
    + destruct (search_loop E now q k rest c1) as [more c2] eqn:Hs.
      simpl in Hin. apply in_app_or in Hin. destruct Hin as [Hin|Hin].
      * apply in_map_iff in Hin. destruct Hin as (ch' & Heq & Hin).
        injection Heq as -> -> ->. split; [left; reflexivity|].
        exact (proj2 (searchDocument_in (regexMatch E) d q k found ch Hd Hin)).
      * specialize (IH c1). rewrite Hs in IH. destruct (IH Hin) as [H1 H2].
        split; [right; exact H1 | exact H2].
    + destruct (IH c1 Hin) as [H1 H2]. split; [right; exact H1 | exact H2].
  - destruct (IH c1 Hin) as [H1 H2]. split; [right; exact H1 | exact H2].
Qed.

(** X17 *)
(** Every hit of [search_documentation] names one of the candidate
    documents and carries a chunk with a positive score for the query; the
    response echoes the query, and for a non-negative [topK] (5 when it is
    absent or 0) it holds at most [topK] hits. *)
Theorem search_documentation_hits (E : env) (now : nat) (a : search_args) (c : cache)
    (q : string) (hs : list hit) :
  fst (search_documentation E now a c) = Results q hs ->
  q = arg_query a /\
  (forall f t ch, In (f, t, ch) hs ->
     In (f, t) (documentsToSearch E a) /\
     exists n, score (regexMatch E) (arg_query a) (content ch) = Some n /\ 0 < n) /\
  ((0 <= effective_topK (arg_topK a))%Z -> length hs <= Z.to_nat (effective_topK (arg_topK a))).
Proof.
  unfold search_documentation, search_over.
  destruct (documentsToSearch E a) as [|d0 ds] eqn:Hd; [discriminate|].
  rewrite <- Hd.
  destruct (search_loop E now (arg_query a) (effective_topK (arg_topK a)) (documentsToSearch E a) c)
    as [all c'] eqn:Hs.
  unfold finish_search. simpl. destruct all as [|h0 hs0]; [discriminate|].
  intros Heq. injection Heq as <- <-. split; [reflexivity|]. split.
  - intros f t ch Hin.
    destruct (js_slice_to_firstn (h0 :: hs0) (effective_topK (arg_topK a))) as [m Hm].
    rewrite Hm in Hin. apply in_firstn in Hin.
    pose proof (search_loop_hits E now (arg_query a) (effective_topK (arg_topK a))
                  (documentsToSearch E a) c f t ch) as H.
    rewrite Hs in H. exact (H Hin).
  - apply js_slice_to_length.
Qed.

(** A search over the storage [env_mixed] with the default arguments. *)
Definition args_hello : search_args :=
  {| arg_query := "hello"; arg_filename := None; arg_type := None; arg_topK := None |}.

Lemma search_documentation_hits_witness :
  fst (search_documentation env_mixed 0 args_hello ∅) =
    Results "hello" [("b.pdf", pdf, mk_chunk "Hello." 0)] /\
  ("hello" = arg_query args_hello /\
   (forall f t ch, In (f, t, ch) [("b.pdf", pdf, mk_chunk "Hello." 0)] ->
      In (f, t) (documentsToSearch env_mixed args_hello) /\
      exists n, score (regexMatch env_mixed) (arg_query args_hello) (content ch) = Some n /\
                0 < n) /\
   ((0 <= effective_topK (arg_topK args_hello))%Z ->
      length [("b.pdf", pdf, mk_chunk "Hello." 0)] <=
        Z.to_nat (effective_topK (arg_topK args_hello)))).
Proof.
  assert (H : fst (search_documentation env_mixed 0 args_hello ∅) =
                Results "hello" [("b.pdf", pdf, mk_chunk "Hello." 0)])
    by (vm_compute; reflexivity).
  split; [exact H | exact (search_documentation_hits env_mixed 0 args_hello ∅ _ _ H)].
Defined.

(** A parse keeps every cache entry: it only adds the entry of a
    document that was missing. *)
Lemma parseDocument_keeps (E : env) (now : nat) (f : string) (t : DocumentType) (c : cache)
    (k : string) (d : ParsedDocument) :
  c !! k = Some d -> snd (parseDocument E now f t c) !! k = Some d.
Proof.
  intros Hk.
  assert (Hins : forall d', c !! cacheKey t f = None ->
            <[cacheKey t f := d']> c !! k = Some d).
  { intros d' Hn. assert (Hne : k <> cacheKey t f) by congruence.
    rewrite <- Hk. apply lookup_insert_ne. congruence. }
  destruct t; simpl.
  - unfold parseCSV. destruct (validateFilename f); [|exact Hk].
    destruct (c !! cacheKey csv f) eqn:Hl; [exact Hk|].
    unfold csv_miss. destruct (read_file E csv f); [|exact Hk].
    destruct (normalizeCSV s) as [[text w]|]; [|exact Hk].
    apply Hins. reflexivity.
  - unfold parsePDF, pdf_begin. destruct (validateFilename f); [|exact Hk].
    destruct (c !! cacheKey pdf f) eqn:Hl; [exact Hk|].
    unfold pdf_open. destruct (read_file E pdf f); [|exact Hk].
    unfold pdf_finish. destruct (pdfParse E s) as [[text np]|]; [|exact Hk].
    apply Hins. reflexivity.
Qed.

Lemma search_loop_keeps (E : env) (now : nat) (q : string) (topK : Z)
    (docs : list (string * DocumentType)) (c : cache) (k : string) (d : ParsedDocument) :
  c !! k = Some d -> snd (search_loop E now q topK docs c) !! k = Some d.
Proof.
  revert c. induction docs as [|[f t] rest IH]; intros c Hk; simpl; [exact Hk|].
  pose proof (parseDocument_keeps E now f t c k d Hk) as H1.
  destruct (parseDocument E now f t c) as [[pd|e] c1]; simpl in H1.
  - destruct (searchDocument (regexMatch E) pd q topK); [|exact (IH c1 H1)].
    specialize (IH c1 H1). destruct (search_loop E now q topK rest c1). exact IH.
  - exact (IH c1 H1).
Qed.

(** X18 *)
(** A search never evicts or replaces a cached document: every entry of
    the cache before the search is in the cache after it, unchanged. *)
Theorem search_documentation_keeps_cache (E : env) (now : nat) (a : search_args) (c : cache)
    (k : string) (d : ParsedDocument) :
  c !! k = Some d -> snd (search_documentation E now a c) !! k = Some d.
Proof.
  intros Hk. unfold search_documentation, search_over.
  destruct (documentsToSearch E a) as [|d0 ds]; [exact Hk|].
  pose proof (search_loop_keeps E now (arg_query a) (effective_topK (arg_topK a)) (d0 :: ds)
                c k d Hk) as H.
  destruct (search_loop E now (arg_query a) (effective_topK (arg_topK a)) (d0 :: ds) c).
  exact H.
Qed.

Lemma search_documentation_keeps_cache_witness :
  ({[cacheKey csv "a.csv" := doc_a]} : cache) !! cacheKey csv "a.csv" = Some doc_a /\
  snd (search_documentation env_mixed 5 args_hello {[cacheKey csv "a.csv" := doc_a]})
    !! cacheKey csv "a.csv" = Some doc_a.
Proof.
  assert (H : ({[cacheKey csv "a.csv" := doc_a]} : cache) !! cacheKey csv "a.csv" = Some doc_a)
    by (vm_compute; reflexivity).
  split; [exact H | exact (search_documentation_keeps_cache env_mixed 5 args_hello _ _ _ H)].
Defined.

(** The file extension the listing of a type keeps. *)
Definition ext_of (t : DocumentType) : string :=
  match t with csv => ".csv" | pdf => ".pdf" end.

Definition listing_of (E : env) (t : DocumentType) : option (list string) :=
  match t with csv => csv_listing E | pdf => pdf_listing E end.

Lemma listed_files (E : env) (t : DocumentType) (f : string) :
  In f (match t with csv => getAvailableCSVs E | pdf => getAvailablePDFs E end) ->
  (exists files, listing_of E t = Some files /\ In f files) /\
  endsWith (toLowerCase f) (ext_of t) = true.
Proof.
  destruct t; unfold getAvailableCSVs, getAvailablePDFs; simpl;
    destruct (_ E) as [files|]; intros Hin; try destruct Hin;
    apply filter_In in Hin; destruct Hin as [Hin He]; split; eauto.
Qed.

(** X19 *)
(** Each candidate document of [search_documentation] is either the file
    named in the arguments, when both a non-empty filename and a type are
    given, or a file of the listed directory of its type whose name ends
    (in any case) in that type's extension, of the requested type when a
    type is given. *)
Theorem documentsToSearch_candidates (E : env) (a : search_args) (f : string)
    (t : DocumentType) :
  In (f, t) (documentsToSearch E a) ->
  (arg_filename a = Some f /\ f <> "" /\ arg_type a = Some t) \/
  ((exists files, listing_of E t = Some files /\ In f files) /\
   endsWith (toLowerCase f) (ext_of t) = true /\
   (arg_type a = None \/ arg_type a = Some t)).
Proof.
  unfold documentsToSearch.
  assert (Htyped : forall t0, arg_type a = Some t0 ->
            In (f, t) (map (fun f => (f, t0))
                         (match t0 with csv => getAvailableCSVs E | pdf => getAvailablePDFs E end)) ->
            (exists files, listing_of E t = Some files /\ In f files) /\
            endsWith (toLowerCase f) (ext_of t) = true /\
            (arg_type a = None \/ arg_type a = Some t)).
  { intros t0 Ht0 Hin. apply in_map_iff in Hin. destruct Hin as (f' & Heq & Hin).
    injection Heq as -> ->. destruct (listed_files E _ f Hin) as [H1 H2].
    split; [exact H1|]. split; [exact H2|]. right. exact Ht0. }
  assert (Hall : In (f, t) (getAllDocuments E) ->
            (exists files, listing_of E t = Some files /\ In f files) /\
            endsWith (toLowerCase f) (ext_of t) = true).
  { unfold getAllDocuments. intros Hin. apply in_app_or in Hin.
    destruct Hin as [Hin|Hin]; apply in_map_iff in Hin; destruct Hin as (f' & Heq & Hin);
      injection Heq as -> <-.
    - exact (listed_files E csv f Hin).
    - exact (listed_files E pdf f Hin). }
  destruct (arg_filename a) as [fa|] eqn:Hf; destruct (arg_type a) as [ta|] eqn:Ht.
  - destruct (String.eqb fa "") eqn:He.
    + intros Hin. right. exact (Htyped ta eq_refl Hin).
    + intros [Heq|[]]. injection Heq as -> ->. left.
      apply String.eqb_neq in He. auto.
  - intros Hin. right. destruct (Hall Hin) as [H1 H2]. auto.
  - intros Hin. right. exact (Htyped ta eq_refl Hin).
  - intros Hin. right. destruct (Hall Hin) as [H1 H2]. auto.
Qed.

Lemma documentsToSearch_candidates_witness :
  In ("b.pdf", pdf) (documentsToSearch env_mixed args_hello) /\
  ((arg_filename args_hello = Some "b.pdf" /\ "b.pdf" <> "" /\ arg_type args_hello = Some pdf) \/
   ((exists files, listing_of env_mixed pdf = Some files /\ In "b.pdf" files) /\
    endsWith (toLowerCase "b.pdf") (ext_of pdf) = true /\
    (arg_type args_hello = None \/ arg_type args_hello = Some pdf))).
Proof.
  assert (H : In ("b.pdf", pdf) (documentsToSearch env_mixed args_hello))
    by (vm_compute; right; left; reflexivity).
  split; [exact H | exact (documentsToSearch_candidates env_mixed args_hello _ _ H)].
Defined.

(** ** Short texts *)

Lemma slength_app (x y : string) : String.length (x +:+ y) = String.length x + String.length y.
Proof. induction x as [|c x IH]; [reflexivity|]. rewrite sapp_cons. simpl. rewrite IH. reflexivity. Qed.

Lemma slength_of_list (l : list ascii) : String.length (string_of_list_ascii l) = length l.
Proof. induction l as [|c l IH]; simpl; [reflexivity | rewrite IH; reflexivity]. Qed.

(** The lengths of the sentence pieces, one more for each piece. *)
Definition pieces_size (l : list string) : nat :=
  fold_right (fun s acc => String.length s + 1 + acc) 0 l.

Lemma split_sentences_aux_size (s : string) (acc : list ascii) (insep : bool) :
  pieces_size (split_sentences_aux s acc insep) <= length acc + String.length s + 1.
Proof.
  revert acc insep. induction s as [|c t IH]; intros acc insep; cbn [split_sentences_aux].
  - simpl. rewrite slength_of_list, length_rev. lia.
  - simpl String.length. destruct insep; [destruct (is_ws c)|].
    + specialize (IH [] true). simpl in IH. lia.
    + specialize (IH [c] false). simpl in IH. lia.
    + destruct (is_ws c && match acc with p :: _ => is_punct p | [] => false end).
      * simpl. rewrite slength_of_list, length_rev. specialize (IH [] true). simpl in IH. lia.
      * specialize (IH (c :: acc) false). simpl in IH. lia.
Qed.

(** Without a push, the current chunk and the remaining pieces fit in the
    chunk size, so no push happens. *)
Lemma chunk_loop_no_push (sz ov : Z) (ss : list string) (cur : string) :
  (cur = "" -> Z.of_nat (pieces_size ss) <= sz + 1)%Z ->
  (cur <> "" -> slen cur + Z.of_nat (pieces_size ss) <= sz)%Z ->
  fst (chunk_loop sz ov ss [] cur) = [].
Proof.
  revert cur. induction ss as [|s rest IH]; intros cur H1 H2; simpl; [reflexivity|].
  unfold slen in *. simpl pieces_size in *.
  destruct (String.eqb cur "") eqn:Hc.
  - apply String.eqb_eq in Hc. subst cur. specialize (H1 eq_refl).
    change (Z.of_nat (String.length "")) with 0%Z. change ((0 <? 0)%Z) with false.
    rewrite andb_false_r. change ("" +:+ "" +:+ s) with s.
    apply IH.
    + intros ->. simpl in H1. lia.
    + intros _. lia.
  - apply String.eqb_neq in Hc. specialize (H2 Hc).
    rewrite (proj2 (Z.ltb_ge sz _)) by lia. simpl andb.
    apply IH.
    + intros He. apply (f_equal String.length) in He.
      rewrite !slength_app in He. simpl in He. lia.
    + intros _. rewrite !slength_app. simpl String.length at 2. lia.
Qed.

(** X20 *)
(** A text no longer than the chunk size gives at most one chunk (exactly
    one when it has a non-whitespace character): the sentences are only
    joined, never split into several chunks. *)
Theorem chunkText_short_single (text : string) (chunkSize overlap : Z) :
  (slen text <= chunkSize)%Z -> length (chunkText text chunkSize overlap) <= 1.
Proof.
  intros Hs. unfold chunkText, split_sentences.
  pose proof (split_sentences_aux_size text [] false) as Hz. simpl in Hz. unfold slen in Hs.
  pose proof (chunk_loop_no_push chunkSize overlap (split_sentences_aux text [] false) ""
                (fun _ => ltac:(lia)) (fun H => ltac:(congruence))) as H.
  destruct (chunk_loop chunkSize overlap (split_sentences_aux text [] false) [] "")
    as [chunks cur]. simpl in H. subst chunks.
  destruct (String.eqb (trim cur) ""); simpl; lia.
Qed.

Lemma chunkText_short_single_witness :
  (slen "One. Two! Three?" <= 1000)%Z /\
  length (chunkText "One. Two! Three?" 1000 200) <= 1.
Proof.
  assert (H : (slen "One. Two! Three?" <= 1000)%Z) by (vm_compute; discriminate).
  split; [exact H | exact (chunkText_short_single _ 1000 200 H)].
Defined.

(** ** The [get_document_summary] tool *)

Lemma parseDocument_sound (E : env) (now : nat) (f : string) (t : DocumentType) (c : cache) :
  cache_ok E c ->
  forall d, fst (parseDocument E now f t c) = Ok d -> doc_ok E t f d.
Proof.
  intros Hc. destruct t; simpl.
  - exact (proj2 (parseCSV_sound E now f c Hc)).
  - unfold parsePDF. pose proof (pdf_begin_sound E f c Hc) as Hb.
    destruct (pdf_begin E f c) as [r|buf]; [exact Hb|].
    destruct Hb as [Hv Hr]. exact (proj2 (pdf_finish_sound E now f buf c Hv Hr Hc)).
Qed.

(** X21 *)
(** On a cache of well-formed entries (every cache reachable by the event
    loop, see [run_ok]), a successful [get_document_summary] reports the
    document's page count, the number of chunks [chunkText] makes of the
    document text, and a preview made of the first three of those chunks
    joined by blank lines. *)
Theorem get_document_summary_preview (E : env) (now : nat) (f type : string) (c c' : cache)
    (s : string) :
  cache_ok E c ->
  get_document_summary E now f type c = (Ok s, c') ->
  exists d, doc_ok E (dispatch_type type) f d /\
    s = summary_text f type (pageCount d) (length (chunkText_default (fullText d)))
          (join (NL +:+ NL) (firstn 3 (chunkText_default (fullText d)))).
Proof.
  intros Hc. unfold get_document_summary.
  pose proof (parseDocument_sound E now f (dispatch_type type) c Hc) as Hs.
  destruct (parseDocument E now f (dispatch_type type) c) as [[d|e] c1]; [|discriminate].
  intros Heq. injection Heq as <- _. exists d.
  destruct (Hs d eq_refl) as (Hf & Ht & Hv & Hst & Hm & Hi).
  split; [exact (Hs d eq_refl)|].
  rewrite <- Hm, length_map, firstn_map. reflexivity.
Qed.

Lemma get_document_summary_preview_witness :
  cache_ok env_mixed ∅ /\
  get_document_summary env_mixed 0 "a.csv" "csv" ∅ =
    (Ok (summary_text "a.csv" "csv" 1 1 "h: x"), {[cacheKey csv "a.csv" := doc_a]}) /\
  exists d, doc_ok env_mixed (dispatch_type "csv") "a.csv" d /\
    summary_text "a.csv" "csv" 1 1 "h: x" =
      summary_text "a.csv" "csv" (pageCount d) (length (chunkText_default (fullText d)))
        (join (NL +:+ NL) (firstn 3 (chunkText_default (fullText d)))).
Proof.
  assert (Hc : cache_ok env_mixed ∅) by (intros t f d Hl; discriminate Hl).
  assert (Hg : get_document_summary env_mixed 0 "a.csv" "csv" ∅ =
    (Ok (summary_text "a.csv" "csv" 1 1 "h: x"), {[cacheKey csv "a.csv" := doc_a]}))
    by (vm_compute; reflexivity).
  split; [exact Hc|]. split; [exact Hg|].
  exact (get_document_summary_preview env_mixed 0 "a.csv" "csv" ∅ _ _ Hc Hg).
Defined.

(** ** Negative [topK] *)

(** X22 *)
(** A negative [topK] is not rejected: [slice(0, topK)] then drops the
    [|topK|] lowest-ranked matching chunks, so a search that returns gives
    all matching chunks but the last [|topK|] (none when there are not
    more than [|topK|]). *)
Theorem searchDocument_negative_topK (re : regex_engine) (doc : ParsedDocument) (q : string)
    (k : Z) (hits : list DocumentChunk) :
  (k < 0)%Z -> searchDocument re doc q k = Some hits ->
  length hits =
  length (List.filter (fun ch => Nat.ltb 0 (score_of re q ch)) (chunks doc)) - Z.to_nat (- k).
Proof.
  intros Hk Hs. destruct (searchDocument_eq re doc q k hits Hs) as [-> _].
  unfold js_slice_to.
  rewrite (proj2 (Z.ltb_lt k 0) Hk), length_firstn.
  destruct (sort_desc_facts (score_of re q)
              (List.filter (fun ch => Nat.ltb 0 (score_of re q ch)) (chunks doc)) [] I)
    as (_ & Hp & _).
  rewrite app_nil_r in Hp. unfold sort_desc. rewrite (Permutation_length Hp). lia.
Qed.

Lemma searchDocument_negative_topK_witness :
  ((-1 < 0)%Z /\
   searchDocument literal_regex doc_three_chunks "beta" (-1) =
     Some [mk_chunk "Beta beta gamma." 1]) /\
  length [mk_chunk "Beta beta gamma." 1] =
  length (List.filter (fun ch => Nat.ltb 0 (score_of literal_regex "beta" ch))
            (chunks doc_three_chunks)) - Z.to_nat (- (-1)).
Proof.
  assert (Hk : (-1 < 0)%Z) by lia.
  assert (Hs : searchDocument literal_regex doc_three_chunks "beta" (-1) =
                 Some [mk_chunk "Beta beta gamma." 1]) by (vm_compute; reflexivity).
  split; [split; [exact Hk | exact Hs]|].
  exact (searchDocument_negative_topK literal_regex doc_three_chunks "beta" (-1) _ Hk Hs).
Defined.

(** ** Queries the regular expression engine rejects *)

Lemma searchDocument_rejected_term (re : regex_engine) (doc : ParsedDocument) (q term : string)
    (k : Z) (hits : list DocumentChunk) :
  In term (queryTerms q) -> (forall s, re term s = None) ->
  searchDocument re doc q k = Some hits -> hits = [].
Proof.
  intros Ht Hre Hs. destruct hits as [|ch rest]; [reflexivity|].
  destruct (searchDocument_in re doc q k (ch :: rest) ch Hs (or_introl eq_refl))
    as [_ (n & Hn & _)].
  assert (Hnone : score re q (content ch) = None).
  { apply score_none. exists term. split; [exact Ht | apply Hre]. }
  congruence.
Qed.

Lemma search_loop_no_hits (E : env) (now : nat) (q : string) (k : Z)
    (docs : list (string * DocumentType)) (c : cache) :
  (forall doc hits, searchDocument (regexMatch E) doc q k = Some hits -> hits = []) ->
  fst (search_loop E now q k docs c) = [].
Proof.
  intros Hnone. revert c. induction docs as [|[f t] rest IH]; intros c; simpl; [reflexivity|].
  destruct (parseDocument E now f t c) as [[d|e] c1]; [|apply IH].
  destruct (searchDocument (regexMatch E) d q k) as [found|] eqn:Hd; [|apply IH].
  rewrite (Hnone d found Hd). specialize (IH c1).
  destruct (search_loop E now q k rest c1). simpl in *. exact IH.
Qed.

(** X24 *)
(** When the regular expression built from one of the query terms throws
    (as [new RegExp("c++", "gi")] does), every document's search throws or
    finds nothing, so [search_documentation] answers that there are no
    documents or no results: it never returns a hit. *)
Theorem search_regex_error_no_results (E : env) (now : nat) (a : search_args) (c : cache)
    (term : string) :
  In term (queryTerms (arg_query a)) -> (forall s, regexMatch E term s = None) ->
  fst (search_documentation E now a c) = NoDocuments \/
  fst (search_documentation E now a c) = NoResults (arg_query a).
Proof.
  intros Ht Hre. unfold search_documentation, search_over.
  destruct (documentsToSearch E a) as [|d0 ds]; [left; reflexivity|right].
  pose proof (search_loop_no_hits E now (arg_query a) (effective_topK (arg_topK a)) (d0 :: ds) c
                (fun doc hits => searchDocument_rejected_term (regexMatch E) doc (arg_query a)
                                   term _ hits Ht Hre)) as H.
  destruct (search_loop E now (arg_query a) (effective_topK (arg_topK a)) (d0 :: ds) c)
    as [all c']. simpl in H. subst all. reflexivity.
Qed.

(** A query the regular expression constructor rejects. *)
Definition args_cpp : search_args :=
  {| arg_query := "c++"; arg_filename := None; arg_type := None; arg_topK := None |}.

Lemma search_regex_error_no_results_witness :
  (In "c++" (queryTerms (arg_query args_cpp)) /\
   (forall s, regexMatch env_mixed "c++" s = None)) /\
  (fst (search_documentation env_mixed 0 args_cpp ∅) = NoDocuments \/
   fst (search_documentation env_mixed 0 args_cpp ∅) = NoResults (arg_query args_cpp)).
Proof.
  assert (Ht : In "c++" (queryTerms (arg_query args_cpp))) by (vm_compute; left; reflexivity).
  assert (Hre : forall s, regexMatch env_mixed "c++" s = None) by (intros s; reflexivity).
  split; [split; [exact Ht | exact Hre]|].
  exact (search_regex_error_no_results env_mixed 0 args_cpp ∅ "c++" Ht Hre).
Defined.
